(** * trees.py: labelled ordered trees and five recursive algorithms

    A shallow embedding of [src/trees.py].  Labels are Python integers
    (unbounded, hence [Z]).  A [Tree] object owns its list of branches and a
    well-formed tree shares no node, so the in-place mutators
    ([prune_small], [label_squarer]) are modelled by state passing: each
    takes the tree before the call and gives the tree after it together
    with the outcome of the call.  [prune_small] and [label_squarer] give
    the call as it runs when the interpreter has room for every nested
    call; [prune_small_in] and [label_squarer_in] add the interpreter's
    bound on the depth of calls and the [RecursionError] it raises. *)

From Stdlib Require Import Ascii.
From stdpp Require Import base numbers list strings pretty.

#[local] Set Warnings "-register-all".

(** ** Data model *)

(** [class Tree]: a label and an ordered list of branches. *)
Local Unset Elimination Schemes.
Inductive Tree : Type :=
| Node (label : Z) (branches : list Tree).
Local Set Elimination Schemes.

Definition label (t : Tree) : Z :=
  match t with Node l _ => l end.

Definition branches (t : Tree) : list Tree :=
  match t with Node _ bs => bs end.

(** [Tree.is_leaf]: [return not self.branches]. *)
Definition is_leaf (t : Tree) : bool :=
  match branches t with [] => true | _ :: _ => false end.

(** Induction over a tree with the hypothesis available for every branch. *)
Section Tree_nested_induction.
Variable P : Tree → Prop.
Hypothesis Hnode : ∀ l bs, Forall P bs → P (Node l bs).

Fixpoint Tree_nested_ind (t : Tree) : P t :=
  match t with
  | Node l bs =>
      Hnode l bs
        ((fix all (bs : list Tree) : Forall P bs :=
            match bs with
            | [] => List.Forall_nil P
            | b :: rest =>
                List.Forall_cons P b rest (Tree_nested_ind b) (all rest)
            end) bs)
  end.
End Tree_nested_induction.

(** Number of nodes; the recursion budget of [prune_small] is measured
    against it. *)
Fixpoint size (t : Tree) : nat :=
  match t with
  | Node _ bs => S (sum_list (size <$> bs))
  end.

(** The tree of the concrete scenario:
    [Tree(1, [Tree(2, [Tree(4), Tree(5)]), Tree(3)])]. *)
Definition example_tree : Tree :=
  Node 1 [Node 2 [Node 4 []; Node 5 []]; Node 3 []].

(** ** Outcomes of a call *)

Inductive exn : Type := AssertionError | ValueError | RecursionError.

(** A call returns a value, raises, or exhausts the budget of the model. *)
Inductive outcome (A : Type) : Type :=
| Returns (v : A)
| Raises (e : exn)
| Timeout.
Arguments Returns {A} v.
Arguments Raises {A} e.
Arguments Timeout {A}.

(** ** Pure algorithms *)

(** [max] over a non-empty sequence of integers, left to right. *)
Definition py_max (first : Z) (rest : list Z) : Z :=
  fold_left Z.max rest first.

(** [max_path_sum]: a leaf gives its label, any other node its label plus
    the greatest [max_path_sum] of its branches.  [t.is_leaf()] holds
    exactly when the list of branches is empty (lemma [is_leaf_nil]), so
    [max] is only ever called on a non-empty sequence. *)
Fixpoint max_path_sum (t : Tree) : Z :=
  match t with
  | Node l [] => l
  | Node l (b :: rest) => l + py_max (max_path_sum b) (max_path_sum <$> rest)
  end.

(** [find_path]: [None] is Python's [None], reached by falling off the end
    of the function.  [if path:] holds for a non-empty list only. *)
Fixpoint find_path (t : Tree) (x : Z) : option (list Z) :=
  match t with
  | Node l bs =>
      if l =? x then Some [l]
      else
        (fix for_b (bs : list Tree) : option (list Z) :=
           match bs with
           | [] => None
           | b :: rest =>
               match find_path b x with
               | Some (p :: path) => Some (l :: p :: path)
               | Some [] | None => for_b rest
               end
           end) bs
  end%Z.

(** [preorder]: [result = [t.label]], then [result.extend(preorder(b))] for
    each branch in order. *)
Fixpoint preorder (t : Tree) : list Z :=
  match t with
  | Node l bs => fold_left (fun result b => result ++ preorder b) bs [l]
  end.

(** ** Construction *)

(** What a caller may put in the [branches] argument of [Tree(...)]. *)
Inductive pyobj : Type :=
| PyNone
| PyInt (z : Z)
| PyTree (t : Tree).

(** [isinstance(branch, Tree)]. *)
Definition isinstance_Tree (o : pyobj) : bool :=
  match o with PyTree _ => true | _ => false end.

(** [for branch in branches: assert isinstance(branch, Tree)]. *)
Fixpoint assert_branches (args : list pyobj) : outcome unit :=
  match args with
  | [] => Returns tt
  | o :: rest =>
      if isinstance_Tree o then assert_branches rest else Raises AssertionError
  end.

(** The trees among the arguments, in order: the content of
    [list(branches)] once every assertion has passed. *)
Fixpoint trees_of (args : list pyobj) : list Tree :=
  match args with
  | [] => []
  | PyTree t :: rest => t :: trees_of rest
  | _ :: rest => trees_of rest
  end.

(** [Tree.__init__(self, label, branches)]. *)
Definition Tree_init (l : Z) (args : list pyobj) : outcome Tree :=
  match assert_branches args with
  | Returns _ => Returns (Node l (trees_of args))
  | Raises e => Raises e
  | Timeout => Timeout
  end.

(** ** Mutators *)

(** [for b in bs: body(b)] where [body] mutates [b] in place: the branches
    after the loop and its outcome.  A raise leaves the later branches
    untouched. *)
Section For_each.
Variable body : Tree → Tree * outcome unit.

Fixpoint for_each (bs : list Tree) : list Tree * outcome unit :=
  match bs with
  | [] => ([], Returns tt)
  | b :: rest =>
      match body b with
      | (b', Returns _) =>
          let '(rest', o) := for_each rest in (b' :: rest', o)
      | (b', o) => (b' :: rest, o)
      end
  end.
End For_each.

(** [label_squarer]: [t.label = t.label**2], then the branches in order. *)
Fixpoint label_squarer (t : Tree) : Tree * outcome unit :=
  match t with
  | Node l bs =>
      let '(bs', o) := for_each label_squarer bs in (Node (l ^ 2) bs', o)
  end.

(** One step of [max]: the branch held so far gives way only to a branch
    of strictly greater key. *)
Definition keep_greater (m c : Tree) : Tree :=
  if (label c >? label m)%Z then c else m.

(** [max(bs, key=lambda b: b.label)]: the first branch of greatest label;
    [None] stands for the [ValueError] on an empty list. *)
Definition py_max_key (bs : list Tree) : option Tree :=
  match bs with
  | [] => None
  | b :: rest => Some (fold_left keep_greater rest b)
  end.

(** [==] on trees.  [Tree] defines no [__eq__], so Python compares
    identities; in a list of a well-formed tree the first structurally
    equal branch and the identical one sit at the same place when the
    branch sought is the one [py_max_key] found (lemma
    [py_remove_max_position]). *)
Fixpoint Tree_eqb (t u : Tree) : bool :=
  match t, u with
  | Node a bs, Node b cs =>
      (a =? b)%Z &&
      (fix all2 (bs cs : list Tree) : bool :=
         match bs, cs with
         | [], [] => true
         | x :: xs, y :: ys => Tree_eqb x y && all2 xs ys
         | _, _ => false
         end) bs cs
  end.

(** [bs.remove(x)]: drops the first element equal to [x]; [None] stands
    for the [ValueError] when there is none. *)
Fixpoint py_remove (x : Tree) (bs : list Tree) : option (list Tree) :=
  match bs with
  | [] => None
  | b :: rest =>
      if Tree_eqb b x then Some rest
      else option_map (cons b) (py_remove x rest)
  end.

(** The [while len(t.branches) > n] loop of [prune_small].  Every turn of
    the loop spends one unit of [fuel]. *)
Fixpoint prune_while (fuel : nat) (bs : list Tree) (n : Z)
  : list Tree * outcome unit :=
  if (Z.of_nat (length bs) >? n)%Z then
    match fuel with
    | O => (bs, Timeout)
    | S fuel' =>
        match py_max_key bs with
        | None => (bs, Raises ValueError)
        | Some largest =>
            match py_remove largest bs with
            | None => (bs, Raises ValueError)
            | Some bs' => prune_while fuel' bs' n
            end
        end
    end
  else (bs, Returns tt).

(** [prune_small]: the loop at [t], then the remaining branches in order.
    Every call spends one unit of [fuel]. *)
Fixpoint prune_small (fuel : nat) (t : Tree) (n : Z) : Tree * outcome unit :=
  match fuel with
  | O => (t, Timeout)
  | S fuel' =>
      match prune_while fuel' (branches t) n with
      | (bs, Returns _) =>
          let '(bs', o) := for_each (fun b => prune_small fuel' b n) bs in
          (Node (label t) bs', o)
      | (bs, o) => (Node (label t) bs, o)
      end
  end.

(** ** Specification-side notions *)

(** [has_label x t]: some node of the tree rooted at [t] has label [x]. *)
Inductive has_label (x : Z) : Tree → Prop :=
| has_label_root bs : has_label x (Node x bs)
| has_label_branch l b bs :
    b ∈ bs → has_label x b → has_label x (Node l bs).

(** The root-to-node label paths of all the nodes of [t], the nodes taken
    in preorder: the root first, then the nodes of each branch in listed
    order, depth first. *)
Fixpoint node_paths (t : Tree) : list (list Z) :=
  match t with
  | Node l bs => [l] :: (cons l <$> concat (node_paths <$> bs))
  end.

(** The subtree reached from [t] by following the branch indices [p]. *)
Fixpoint subtree (t : Tree) (p : list nat) : option Tree :=
  match p with
  | [] => Some t
  | i :: p' =>
      match branches t !! i with
      | Some b => subtree b p'
      | None => None
      end
  end.

(** The tree without its labels. *)
Inductive Shape : Type :=
| ShapeNode (branches : list Shape).

Fixpoint shape (t : Tree) : Shape :=
  match t with
  | Node _ bs => ShapeNode (shape <$> bs)
  end.

(** [every_node P t]: [P] holds of every node of the tree rooted at [t]. *)
Inductive every_node (P : Tree → Prop) : Tree → Prop :=
| every_node_intro l bs :
    P (Node l bs) → Forall (every_node P) bs → every_node P (Node l bs).

(** [thinned t t']: [t'] is [t] with branches dropped at some nodes; every
    branch left at a node of [t'] comes from a branch that the same node
    has in [t], and labels are kept. *)
Inductive thinned : Tree → Tree → Prop :=
| thinned_node l bs bs' :
    Forall (fun b' => Exists (fun b => thinned b b') bs) bs' →
    thinned (Node l bs) (Node l bs').

(** [thinned_in_order t t']: as [thinned], and at every node the branches
    left are those of a subsequence of the node's branches in [t], each
    once and in the original order. *)
Inductive thinned_in_order : Tree → Tree → Prop :=
| thinned_in_order_node l bs kept bs' :
    kept `sublist_of` bs →
    Forall2 thinned_in_order kept bs' →
    thinned_in_order (Node l bs) (Node l bs').

(** Every label of the tree rooted at [t] is non-negative. *)
Definition nonneg_labels (t : Tree) : Prop :=
  Forall (fun l => 0 ≤ l)%Z (preorder t).

(** The first path of [ps] that ends at [x]. *)
Definition first_ending_at (x : Z) (ps : list (list Z)) : option (list Z) :=
  snd <$> list_find (fun p => last p = Some x) ps.

(** ** The interpreter's limit on nested calls *)

(** [label_squarer] and [prune_small] above say what a call does when the
    interpreter has room for every nested call.  Python bounds the depth
    of calls: a call that would exceed the bound raises [RecursionError]
    at that point, with everything done before it left in place.  In the
    definitions below [frames] is the number of calls of Python functions
    that can still be nested when the call is made. *)

(** The number of levels below the root of [t]; a leaf has none. *)
Fixpoint height (t : Tree) : nat :=
  match t with
  | Node _ bs => max_list ((fun b => S (height b)) <$> bs)
  end.

(** [label_squarer] with [frames] calls left: the call takes one, and
    mutates [t.label] before it calls itself on the branches. *)
Fixpoint label_squarer_in (frames : nat) (t : Tree) : Tree * outcome unit :=
  match frames with
  | O => (t, Raises RecursionError)
  | S frames' =>
      let '(bs', o) := for_each (label_squarer_in frames') (branches t) in
      (Node (label t ^ 2) bs', o)
  end.

(** [max(bs, key=lambda b: b.label)] with [frames] calls left.  On an
    empty list the key is never called and [max] raises [ValueError];
    otherwise the key function is called and needs [key_frames] calls
    above its caller: one for the lambda, and one more where the
    interpreter also counts the call of the builtin [max]. *)
Definition py_max_key_in (key_frames frames : nat) (bs : list Tree)
  : outcome Tree :=
  match py_max_key bs with
  | None => Raises ValueError
  | Some largest =>
      if frames <? key_frames then Raises RecursionError else Returns largest
  end.

(** The loop of [prune_small] with [frames] calls left. *)
Fixpoint prune_while_in (key_frames frames fuel : nat) (bs : list Tree) (n : Z)
  : list Tree * outcome unit :=
  if (Z.of_nat (length bs) >? n)%Z then
    match fuel with
    | O => (bs, Timeout)
    | S fuel' =>
        match py_max_key_in key_frames frames bs with
        | Returns largest =>
            match py_remove largest bs with
            | None => (bs, Raises ValueError)
            | Some bs' => prune_while_in key_frames frames fuel' bs' n
            end
        | Raises e => (bs, Raises e)
        | Timeout => (bs, Timeout)
        end
    end
  else (bs, Returns tt).

(** [prune_small] with [frames] calls left: the call takes one, trims the
    branches of [t], and then calls itself on the branches left. *)
Fixpoint prune_small_in (key_frames frames fuel : nat) (t : Tree) (n : Z)
  : Tree * outcome unit :=
  match frames, fuel with
  | O, _ => (t, Raises RecursionError)
  | S _, O => (t, Timeout)
  | S frames', S fuel' =>
      match prune_while_in key_frames frames' fuel' (branches t) n with
      | (bs, Returns _) =>
          let '(bs', o) :=
            for_each (fun b => prune_small_in key_frames frames' fuel' b n) bs in
          (Node (label t) bs', o)
      | (bs, o) => (Node (label t) bs, o)
      end
  end.

(** ** Rendering *)

(** The line separator of [__str__]. *)
Definition newline : string := String "010"%char EmptyString.

(** [repr(self.label)] and [str(self.label)] of an integer label: its
    decimal digits, after a minus sign when it is negative. *)
Definition repr_label (l : Z) : string := pretty l.

(** [repr] of a list: the items' [repr] separated by a comma and a space,
    between square brackets. *)
Definition repr_list (items : list string) : string :=
  "[" +:+ String.concat ", " items +:+ "]".

(** [Tree.__repr__]: ['Tree({0}{1})'.format(repr(self.label), branch_str)]
    where [branch_str] is empty for a leaf and [', ' + repr(self.branches)]
    otherwise. *)
Fixpoint Tree_repr (t : Tree) : string :=
  match t with
  | Node l bs =>
      let branch_str :=
        match bs with
        | [] => ""
        | _ :: _ => ", " +:+ repr_list (Tree_repr <$> bs)
        end in
      "Tree(" +:+ repr_label l +:+ branch_str +:+ ")"
  end.

(** [Tree.indented]: the label's line, then every line of every branch,
    branches in order, each prefixed by two spaces. *)
Fixpoint indented (t : Tree) : list string :=
  match t with
  | Node l bs =>
      [repr_label l]
      ++ fold_left
           (fun lines b =>
              fold_left (fun lines line => lines ++ ["  " +:+ line])
                (indented b) lines)
           bs []
  end.

(** [Tree.__str__]: ['\n'.join(self.indented())]. *)
Definition Tree_str (t : Tree) : string :=
  String.concat newline (indented t).

(** ** More specification-side notions *)

(** The root-to-leaf label paths of [t], leaves taken left to right. *)
Fixpoint leaf_paths (t : Tree) : list (list Z) :=
  match t with
  | Node l [] => [[l]]
  | Node l bs => cons l <$> concat (leaf_paths <$> bs)
  end.

(** The sum of the labels of a path. *)
Definition path_sum (p : list Z) : Z := foldr Z.add 0%Z p.

(** The labels met from the root of [t] down the branch indices [pos]. *)
Fixpoint labels_along (t : Tree) (pos : list nat) : option (list Z) :=
  match pos with
  | [] => Some [label t]
  | i :: pos' =>
      match branches t !! i with
      | Some b => cons (label t) <$> labels_along b pos'
      | None => None
      end
  end.

(** The nodes of [t] in preorder, each with its depth below the root of
    [t] counted from [d]. *)
Fixpoint preorder_depths (d : nat) (t : Tree) : list (nat * Z) :=
  match t with
  | Node l bs => (d, l) :: concat (preorder_depths (S d) <$> bs)
  end.

(** Two spaces per level of depth. *)
Fixpoint indentation (d : nat) : string :=
  match d with
  | O => ""
  | S d' => "  " +:+ indentation d'
  end.

(** The line of a node of label [dl.2] at depth [dl.1]. *)
Definition render_line (dl : nat * Z) : string :=
  indentation dl.1 +:+ repr_label dl.2.

(** The lines of a text, cut at every line separator; [cur] is the part of
    the current line read so far. *)
Fixpoint split_lines (cur : string) (s : string) : list string :=
  match s with
  | EmptyString => [cur]
  | String c s' =>
      if Ascii.eqb c "010"%char then cur :: split_lines "" s'
      else split_lines (cur +:+ String c "") s'
  end.

(** Every character of [s] passes the test [P]. *)
Fixpoint all_chars (P : ascii → bool) (s : string) : Prop :=
  match s with
  | EmptyString => True
  | String c s' => P c = true ∧ all_chars P s'
  end.

(** The characters of a rendered integer: the decimal digits and the
    minus sign. *)
Definition label_char (c : ascii) : bool :=
  (48 <=? nat_of_ascii c) && (nat_of_ascii c <=? 57) || Ascii.eqb c "-"%char.

(** The characters of a line of [indented]: those of a label, and the
    space. *)
Definition line_char (c : ascii) : bool :=
  label_char c || Ascii.eqb c " "%char.

(** ** The concrete scenario *)

Example max_path_sum_example : max_path_sum example_tree = 8%Z.
Proof. reflexivity. Qed.

Example find_path_example_5 : find_path example_tree 5 = Some [1; 2; 5]%Z.
Proof. reflexivity. Qed.

Example find_path_example_9 : find_path example_tree 9 = None.
Proof. reflexivity. Qed.

Example label_squarer_example :
  label_squarer example_tree
  = (Node 1 [Node 4 [Node 16 []; Node 25 []]; Node 9 []], Returns tt)%Z.
Proof. reflexivity. Qed.

Example prune_small_example_negative :
  prune_small 6 example_tree (-1) = (Node 1 [], Raises ValueError).
Proof. reflexivity. Qed.

Example Tree_init_example :
  Tree_init 1 [PyTree (Node 2 []); PyInt 3] = Raises AssertionError.
Proof. reflexivity. Qed.

(** ** preorder *)

Lemma fold_left_extend {A} (f : A → list Z) (bs : list A) (acc : list Z) :
  fold_left (fun result b => result ++ f b) bs acc = acc ++ concat (f <$> bs).
Proof.
  revert acc. induction bs as [|b bs IH]; intros acc; simpl.
  - by rewrite app_nil_r.
  - by rewrite IH, <- app_assoc.
Qed.

Lemma preorder_node l bs :
  preorder (Node l bs) = l :: concat (preorder <$> bs).
Proof. simpl. by rewrite fold_left_extend. Qed.

Lemma length_concat_fmap {A} (f : A → list Z) (bs : list A) :
  length (concat (f <$> bs)) = sum_list ((fun b => length (f b)) <$> bs).
Proof.
  induction bs as [|b bs IH]; [done|].
  rewrite !fmap_cons. simpl concat. by rewrite length_app, IH.
Qed.

(** C7: [preorder(t)] is [[t.label]] followed by the preorder listings of
    the branches, concatenated in branch order; its length is one more
    than the sum of the lengths of the branches' listings; and on the
    tree of the concrete scenario it is [[1, 2, 4, 5, 3]]. *)
Theorem preorder_spec :
  (∀ t : Tree,
      preorder t = label t :: concat (preorder <$> branches t)
      ∧ length (preorder t)
        = 1 + sum_list ((fun b => length (preorder b)) <$> branches t))
  ∧ preorder example_tree = [1; 2; 4; 5; 3]%Z.
Proof.
  split; [|reflexivity].
  intros [l bs]. rewrite preorder_node. split; [done|].
  change (length (l :: ?k)) with (S (length k)).
  by rewrite length_concat_fmap.
Qed.

(** ** max_path_sum *)

Lemma is_leaf_nil (t : Tree) : is_leaf t = true ↔ branches t = [].
Proof. unfold is_leaf. by destruct (branches t). Qed.

Lemma max_path_sum_leaf (t : Tree) :
  is_leaf t = true → max_path_sum t = label t.
Proof. destruct t as [l [|b rest]]; [done|]. by intros ?%is_leaf_nil. Qed.

Lemma py_max_ge_first (first : Z) (rest : list Z) :
  (first ≤ py_max first rest)%Z.
Proof.
  unfold py_max. revert first.
  induction rest as [|z rest IH]; intros first; simpl; [lia|].
  etrans; [|apply IH]. lia.
Qed.

Lemma nonneg_labels_node l bs :
  nonneg_labels (Node l bs) ↔ (0 ≤ l)%Z ∧ Forall nonneg_labels bs.
Proof.
  unfold nonneg_labels. rewrite preorder_node, Forall_cons.
  apply and_iff_compat_l.
  induction bs as [|b bs IH]; [by split; constructor|].
  rewrite fmap_cons. simpl concat.
  rewrite Forall_app, Forall_cons, IH. done.
Qed.

(** C2, the claim as stated fails: a root labelled 1 above a single leaf
    labelled -5 has [max_path_sum] -4, which is below the root's label. *)
Lemma max_path_sum_below_label :
  let t := Node 1 [Node (-5) []] in
  (max_path_sum t = -4)%Z ∧ ¬ (max_path_sum t >= label t)%Z.
Proof. simpl. split; [reflexivity|lia]. Qed.

(** C2, as amended: when every node other than the root carries a
    non-negative label, [max_path_sum(t) >= t.label]. *)
Theorem max_path_sum_ge_label (t : Tree) :
  Forall nonneg_labels (branches t) → (max_path_sum t >= label t)%Z.
Proof.
  induction t as [l bs IH] using Tree_nested_ind.
  destruct bs as [|b rest]; simpl; [lia|].
  intros Hnn. apply Forall_cons in Hnn as [Hb _].
  apply Forall_cons in IH as [IHb _].
  destruct b as [lb bsb]. apply nonneg_labels_node in Hb as [Hlb Hbs].
  specialize (IHb Hbs). cbn [label] in IHb.
  pose proof (py_max_ge_first (max_path_sum (Node lb bsb))
                (max_path_sum <$> rest)).
  lia.
Qed.

Lemma max_path_sum_ge_label_witness :
  Forall nonneg_labels (branches example_tree)
  ∧ (max_path_sum example_tree >= label example_tree)%Z.
Proof.
  assert (H : Forall nonneg_labels (branches example_tree)).
  { unfold nonneg_labels. simpl. repeat constructor; lia. }
  split; [exact H | exact (max_path_sum_ge_label example_tree H)].
Defined.

(** ** find_path *)

Lemma concat_mjoin {A} (ls : list (list A)) : concat ls = mjoin ls.
Proof. induction ls as [|l ls IH]; [done|]. simpl. by rewrite IH. Qed.

Lemma elem_of_concat_fmap {A B} (f : A → list B) (bs : list A) (y : B) :
  y ∈ concat (f <$> bs) ↔ ∃ b, b ∈ bs ∧ y ∈ f b.
Proof.
  rewrite concat_mjoin, list_elem_of_join. split.
  - intros (l & Hy & (b & -> & Hb)%list_elem_of_fmap). eauto.
  - intros (b & Hb & Hy). exists (f b). split; [done|].
    by apply list_elem_of_fmap_2.
Qed.

Lemma has_label_preorder (x : Z) (t : Tree) : has_label x t ↔ x ∈ preorder t.
Proof.
  induction t as [l bs IH] using Tree_nested_ind.
  rewrite preorder_node, elem_of_cons, elem_of_concat_fmap.
  rewrite Forall_forall in IH. split.
  - inversion 1 as [|? b ? Hb Hx]; subst; [by left|].
    right. exists b. split; [done|]. by apply IH.
  - intros [->|(b & Hb & Hx)]; [constructor|].
    apply has_label_branch with b; [done|]. by apply IH.
Qed.

Lemma node_paths_node l bs :
  node_paths (Node l bs) = [l] :: (cons l <$> concat (node_paths <$> bs)).
Proof. reflexivity. Qed.

(** Every path listed by [node_paths t] starts at the root of [t]. *)
Lemma node_paths_head (t : Tree) :
  Forall (fun p => head p = Some (label t)) (node_paths t).
Proof.
  destruct t as [l bs]. rewrite node_paths_node. constructor; [done|].
  apply Forall_fmap, Forall_true. done.
Qed.

Lemma node_paths_nonempty (t : Tree) (p : list Z) :
  p ∈ node_paths t → p ≠ [].
Proof.
  intros Hp. pose proof (node_paths_head t) as H.
  rewrite Forall_forall in H. apply H in Hp. by destruct p.
Qed.

Lemma node_paths_concat_nonempty (bs : list Tree) :
  Forall (fun p => p ≠ []) (concat (node_paths <$> bs)).
Proof.
  apply Forall_forall. intros p (b & _ & Hp)%elem_of_concat_fmap.
  by eapply node_paths_nonempty.
Qed.

Lemma last_prefixed (l : Z) (ps : list (list Z)) :
  Forall (fun p => p ≠ []) ps → last <$> (cons l <$> ps) = last <$> ps.
Proof.
  induction 1 as [|p ps Hp _ IH]; [done|].
  rewrite !fmap_cons, IH. f_equal.
  destruct p; [done|]. apply last_cons_cons.
Qed.

(** The path of the [i]-th node ends at the [i]-th label of [preorder]. *)
Lemma node_paths_last (t : Tree) :
  last <$> node_paths t = Some <$> preorder t.
Proof.
  induction t as [l bs IH] using Tree_nested_ind.
  rewrite preorder_node, node_paths_node, !fmap_cons. f_equal.
  rewrite last_prefixed by apply node_paths_concat_nonempty.
  induction IH as [|b bs Hb _ IHbs]; [done|].
  rewrite !fmap_cons. simpl concat. by rewrite !fmap_app, IHbs, Hb.
Qed.

Lemma first_ending_at_cons x p ps :
  first_ending_at x (p :: ps)
  = if decide (last p = Some x) then Some p else first_ending_at x ps.
Proof.
  unfold first_ending_at. simpl. case_decide; [done|].
  by destruct (list_find _ ps) as [[i q]|].
Qed.

Lemma first_ending_at_app x ps qs :
  first_ending_at x (ps ++ qs)
  = match first_ending_at x ps with
    | Some p => Some p
    | None => first_ending_at x qs
    end.
Proof.
  induction ps as [|p ps IH]; [done|].
  rewrite <- app_comm_cons, !first_ending_at_cons. by case_decide.
Qed.

Lemma first_ending_at_prefixed x l ps :
  Forall (fun p => p ≠ []) ps →
  first_ending_at x (cons l <$> ps) = cons l <$> first_ending_at x ps.
Proof.
  induction 1 as [|p ps Hp _ IH]; [done|].
  rewrite fmap_cons, !first_ending_at_cons, IH.
  destruct p as [|z p]; [done|]. rewrite last_cons_cons.
  by case_decide.
Qed.

Lemma first_ending_at_Some x ps p :
  first_ending_at x ps = Some p → p ∈ ps ∧ last p = Some x.
Proof.
  unfold first_ending_at.
  intros ([i q] & Hfind & ->)%fmap_Some.
  apply list_find_Some in Hfind as (Hi & Hlast & _).
  split; [by eapply list_elem_of_lookup_2|done].
Qed.

(** [find_path] gives the first path, in preorder, that ends at [x]. *)
Lemma find_path_first (t : Tree) (x : Z) :
  find_path t x = first_ending_at x (node_paths t).
Proof.
  induction t as [l bs IH] using Tree_nested_ind.
  simpl find_path. rewrite node_paths_node, first_ending_at_cons.
  destruct (Z.eqb_spec l x) as [->|Hne].
  { by rewrite decide_True. }
  rewrite decide_False by (simpl; congruence).
  rewrite first_ending_at_prefixed by apply node_paths_concat_nonempty.
  induction IH as [|b bs Hb _ IHbs]; [done|].
  rewrite fmap_cons. simpl concat. rewrite first_ending_at_app, Hb.
  destruct (first_ending_at x (node_paths b)) as [p|] eqn:Hfirst; [|done].
  apply first_ending_at_Some in Hfirst as [Hp%node_paths_nonempty _].
  by destruct p.
Qed.

Lemma has_label_node_path (x : Z) (t : Tree) :
  has_label x t ↔ ∃ p, p ∈ node_paths t ∧ last p = Some x.
Proof.
  rewrite has_label_preorder.
  rewrite <- (list_elem_of_fmap_inj Some), <- node_paths_last.
  rewrite list_elem_of_fmap.
  split; intros (p & H1 & H2); exists p; split; done || by symmetry.
Qed.

(** C5: when [x] labels some node of [t], [find_path(t, x)] returns a path
    that starts with [t.label] and ends with [x]; it is the root-to-node
    path of node number [i] in preorder, where [i] is the first position
    at which the preorder listing holds [x]. *)
Theorem find_path_first_in_preorder (t : Tree) (x : Z) :
  has_label x t →
  ∃ (p : list Z) (i : nat),
    find_path t x = Some p
    ∧ head p = Some (label t)
    ∧ last p = Some x
    ∧ node_paths t !! i = Some p
    ∧ preorder t !! i = Some x
    ∧ ∀ j, j < i → preorder t !! j ≠ Some x.
Proof.
  intros (q & Hq & Hlast)%has_label_node_path.
  destruct (list_find_elem_of (fun p => last p = Some x) _ q Hq Hlast)
    as [[i p] Hfind].
  exists p, i. rewrite find_path_first. unfold first_ending_at.
  rewrite Hfind. apply list_find_Some in Hfind as (Hi & Hp & Hfirst).
  pose proof (node_paths_head t) as Hhead. rewrite Forall_lookup in Hhead.
  pose proof (node_paths_last t) as Hends.
  assert (Hpre : ∀ j y, preorder t !! j = Some y →
                        ∃ r, node_paths t !! j = Some r ∧ last r = Some y).
  { intros j y Hj.
    assert (Hj' : (last <$> node_paths t) !! j = Some (Some y))
      by (by rewrite Hends, list_lookup_fmap, Hj).
    rewrite list_lookup_fmap in Hj'.
    destruct (node_paths t !! j) as [r|]; [|done].
    exists r. split; [done|]. simpl in Hj'. congruence. }
  split_and!; [done|by eapply Hhead|done|done| |].
  - assert (Hi' : (Some <$> preorder t) !! i = Some (Some x))
      by (by rewrite <- Hends, list_lookup_fmap, Hi; simpl; rewrite Hp).
    rewrite list_lookup_fmap in Hi'.
    destruct (preorder t !! i); [|done]. simpl in Hi'. congruence.
  - intros j Hlt (r & Hr & Hrx)%Hpre. by eapply Hfirst.
Qed.

Lemma find_path_first_in_preorder_witness :
  has_label 5 example_tree
  ∧ ∃ (p : list Z) (i : nat),
      find_path example_tree 5 = Some p
      ∧ head p = Some (label example_tree)
      ∧ last p = Some 5%Z
      ∧ node_paths example_tree !! i = Some p
      ∧ preorder example_tree !! i = Some 5%Z
      ∧ ∀ j, j < i → preorder example_tree !! j ≠ Some 5%Z.
Proof.
  assert (H : has_label 5 example_tree).
  { apply has_label_preorder.
    change (preorder example_tree) with [1; 2; 4; 5; 3]%Z.
    rewrite !elem_of_cons. tauto. }
  split; [exact H | exact (find_path_first_in_preorder example_tree 5 H)].
Defined.

(** C6: [find_path(t, x)] is [None] exactly when no node of [t] has label
    [x]; the function raises in no case, and a path it returns is never
    empty, so [None] cannot be mistaken for a path. *)
Theorem find_path_None_iff (t : Tree) (x : Z) :
  (find_path t x = None ↔ ¬ has_label x t)
  ∧ (∀ p, find_path t x = Some p → p ≠ []).
Proof.
  rewrite find_path_first. split.
  - rewrite has_label_node_path. unfold first_ending_at.
    rewrite fmap_None, list_find_None, Forall_forall. split.
    + intros Hnone (p & Hp & Hlast). by eapply Hnone.
    + intros Hnone p Hp Hlast. apply Hnone. eauto.
  - intros p [Hp _]%first_ending_at_Some.
    by eapply node_paths_nonempty.
Qed.

(** ** Loops over branches *)

Lemma for_each_returns (body : Tree → Tree * outcome unit) (bs : list Tree) :
  Forall (fun b => snd (body b) = Returns tt) bs →
  for_each body bs = ((fun b => fst (body b)) <$> bs, Returns tt).
Proof.
  induction 1 as [|b bs Hb _ IH]; [done|].
  simpl. destruct (body b) as [b' o]. simpl in Hb. subst o.
  by rewrite IH.
Qed.

Lemma for_each_ext (body body' : Tree → Tree * outcome unit) (bs : list Tree) :
  Forall (fun b => snd (body b) ≠ Timeout → body' b = body b) bs →
  snd (for_each body bs) ≠ Timeout →
  for_each body' bs = for_each body bs.
Proof.
  induction 1 as [|b bs Hb _ IH]; [done|].
  simpl. destruct (body b) as [b' [[]|e|]] eqn:Hbody; simpl in *.
  - rewrite Hb by done.
    destruct (for_each body bs) as [rest' o]. intros Ho.
    by rewrite IH.
  - by rewrite Hb.
  - done.
Qed.

(** ** label_squarer *)

Lemma label_squarer_returns (t : Tree) : snd (label_squarer t) = Returns tt.
Proof.
  induction t as [l bs IH] using Tree_nested_ind.
  simpl. by rewrite for_each_returns.
Qed.

Lemma label_squarer_node (l : Z) (bs : list Tree) :
  label_squarer (Node l bs)
  = (Node (l ^ 2) ((fun b => fst (label_squarer b)) <$> bs), Returns tt).
Proof.
  simpl. rewrite for_each_returns; [done|].
  apply Forall_true, label_squarer_returns.
Qed.

Lemma label_squarer_shape (t : Tree) :
  shape (fst (label_squarer t)) = shape t.
Proof.
  induction t as [l bs IH] using Tree_nested_ind.
  rewrite label_squarer_node. simpl. f_equal.
  rewrite <- list_fmap_compose. by apply Forall_fmap_ext_1.
Qed.

Lemma label_squarer_subtree (p : list nat) (t : Tree) :
  label <$> subtree (fst (label_squarer t)) p
  = (fun l => l * l)%Z <$> (label <$> subtree t p).
Proof.
  revert t. induction p as [|i p IH]; intros [l bs];
    rewrite label_squarer_node; simpl.
  - by rewrite Z.pow_2_r.
  - rewrite list_lookup_fmap. destruct (bs !! i) as [b|]; simpl; [|done].
    apply IH.
Qed.

(** C8: [label_squarer(t)] returns [None] without raising; afterwards the
    tree has the shape it had, and the node at every position carries the
    square of the label that the node at that position carried before. *)
Theorem label_squarer_spec (t : Tree) :
  ∃ t' : Tree,
    label_squarer t = (t', Returns tt)
    ∧ shape t' = shape t
    ∧ (∀ p : list nat,
          label <$> subtree t' p
          = (fun l => l * l)%Z <$> (label <$> subtree t p))
    ∧ preorder t' = (fun l => l * l)%Z <$> preorder t.
Proof.
  exists (fst (label_squarer t)). split_and!.
  - rewrite <- (label_squarer_returns t). by destruct (label_squarer t).
  - apply label_squarer_shape.
  - intros p. apply label_squarer_subtree.
  - induction t as [l bs IH] using Tree_nested_ind.
    rewrite label_squarer_node. simpl fst.
    rewrite !preorder_node, fmap_cons, Z.pow_2_r. f_equal.
    induction IH as [|b bs Hb _ IHbs]; [done|].
    rewrite !fmap_cons. simpl concat. by rewrite fmap_app, Hb, IHbs.
Qed.

(** ** Construction *)

Lemma assert_branches_raises (args : list pyobj) :
  assert_branches args = Raises AssertionError
  ↔ ∃ o, o ∈ args ∧ isinstance_Tree o = false.
Proof.
  induction args as [|o args IH]; simpl.
  - split; [done|]. by intros (o & ?%elem_of_nil & _).
  - destruct (isinstance_Tree o) eqn:Ho.
    + rewrite IH. split.
      * intros (o' & Hin & Ho'). exists o'. split; [by right|done].
      * intros (o' & [->|Hin]%elem_of_cons & Ho'); [congruence|eauto].
    + split; [|done]. intros _. exists o. split; [by left|done].
Qed.

Lemma assert_branches_returns (args : list pyobj) :
  assert_branches args = Returns tt
  ↔ ∀ o, o ∈ args → isinstance_Tree o = true.
Proof.
  induction args as [|o args IH]; simpl.
  - split; [|done]. by intros _ o ?%elem_of_nil.
  - destruct (isinstance_Tree o) eqn:Ho.
    + rewrite IH. split.
      * intros Hall o' [->|Hin]%elem_of_cons; auto.
      * intros Hall o' Hin. apply Hall. by right.
    + split; [done|]. intros Hall.
      specialize (Hall o). rewrite Ho in Hall.
      discriminate Hall. by left.
Qed.

Lemma trees_of_all_trees (args : list pyobj) :
  (∀ o, o ∈ args → isinstance_Tree o = true) →
  args = PyTree <$> trees_of args.
Proof.
  induction args as [|o args IH]; intros Hall; [done|].
  assert (Ho : isinstance_Tree o = true) by (apply Hall; by left).
  destruct o; try discriminate Ho. simpl. f_equal.
  apply IH. intros o' Hin. apply Hall. by right.
Qed.

(** C9: [Tree(label, branches)] raises [AssertionError] exactly when some
    supplied child is not a [Tree]; when every supplied child is a
    [Tree] it returns the node whose branches are the supplied children in
    order.  The check belongs to construction only: the operations on
    [Tree] above take a built tree and perform none. *)
Theorem Tree_init_spec (l : Z) (args : list pyobj) :
  (Tree_init l args = Raises AssertionError
   ↔ ∃ o, o ∈ args ∧ isinstance_Tree o = false)
  ∧ ((∀ o, o ∈ args → isinstance_Tree o = true)
     ↔ ∃ bs, Tree_init l args = Returns (Node l bs) ∧ args = PyTree <$> bs).
Proof.
  unfold Tree_init. split.
  - rewrite <- assert_branches_raises.
    destruct (assert_branches args); split; congruence.
  - split.
    + intros Hall. exists (trees_of args).
      rewrite (proj2 (assert_branches_returns args) Hall).
      split; [done|]. by apply trees_of_all_trees.
    + intros (bs & Hinit & ->) o (t & -> & _)%list_elem_of_fmap. done.
Qed.

(** ** prune_small: choosing and removing a branch *)

Lemma Tree_eqb_eq (t u : Tree) : Tree_eqb t u = true ↔ t = u.
Proof.
  revert u. induction t as [a bs IH] using Tree_nested_ind.
  intros [b cs]. simpl. rewrite andb_true_iff, Z.eqb_eq.
  cut (∀ cs,
         (fix all2 (bs cs : list Tree) : bool :=
            match bs, cs with
            | [], [] => true
            | x :: xs, y :: ys => Tree_eqb x y && all2 xs ys
            | _, _ => false
            end) bs cs = true ↔ bs = cs).
  { intros ->. split; [by intros [-> ->]|by intros [= -> ->]]. }
  clear cs. induction IH as [|x xs Hx _ IHxs]; intros [|y ys]; try done.
  rewrite andb_true_iff, Hx, IHxs.
  split; [by intros [-> ->]|by intros [= -> ->]].
Qed.

Lemma keep_greater_gt (m c : Tree) :
  (label m < label c)%Z → keep_greater m c = c.
Proof. unfold keep_greater. by destruct (Z.gtb_spec (label c) (label m)); [|lia]. Qed.

Lemma keep_greater_le (m c : Tree) :
  (label c ≤ label m)%Z → keep_greater m c = m.
Proof. unfold keep_greater. by destruct (Z.gtb_spec (label c) (label m)); [lia|]. Qed.

Lemma py_max_key_elem_of (bs : list Tree) (m : Tree) :
  py_max_key bs = Some m → m ∈ bs.
Proof.
  destruct bs as [|b rest]; [done|]. intros [= <-].
  revert b. induction rest as [|c rest IH]; intros b; simpl.
  - by left.
  - destruct (Z.gtb_spec (label c) (label b)).
    + rewrite keep_greater_gt by done. right. apply IH.
    + rewrite keep_greater_le by done. specialize (IH b). apply elem_of_cons in IH as [->|Hin];
        [by left|by do 2 right].
Qed.

Lemma py_max_key_is_Some (bs : list Tree) :
  bs ≠ [] → is_Some (py_max_key bs).
Proof. destruct bs; [done|]. intros _. by eexists. Qed.

Lemma py_remove_elem_of (x : Tree) (bs : list Tree) :
  x ∈ bs → is_Some (py_remove x bs).
Proof.
  induction bs as [|b bs IH]; [by intros ?%elem_of_nil|].
  intros Hin. simpl. destruct (Tree_eqb b x) eqn:Heq; [by eexists|].
  apply elem_of_cons in Hin as [->|Hin].
  - by rewrite (proj2 (Tree_eqb_eq b b)) in Heq.
  - destruct (IH Hin) as [bs' ->]. by eexists.
Qed.

Lemma py_remove_sublist (x : Tree) (bs bs' : list Tree) :
  py_remove x bs = Some bs' →
  bs' `sublist_of` bs ∧ length bs = S (length bs').
Proof.
  revert bs'. induction bs as [|b bs IH]; intros bs'; simpl; [done|].
  destruct (Tree_eqb b x).
  - intros [= <-]. split; [by apply sublist_cons|done].
  - destruct (py_remove x bs) as [bs''|]; [|done]. intros [= <-].
    destruct (IH bs'' eq_refl) as [Hsub Hlen].
    split; [by apply sublist_skip|]. simpl. by rewrite Hlen.
Qed.

(** [py_max_key] scans from the left and keeps the branch it holds unless
    the next one has a strictly greater label. *)
Lemma py_max_key_scan (rest pre : list Tree) (m : Tree) (i : nat) :
  pre !! i = Some m →
  (∀ j b, pre !! j = Some b → j < i → (label b < label m)%Z) →
  (∀ b, b ∈ pre → (label b ≤ label m)%Z) →
  let m' := fold_left keep_greater rest m in
  ∃ i',
    (pre ++ rest) !! i' = Some m'
    ∧ (∀ j b, (pre ++ rest) !! j = Some b → j < i' → (label b < label m')%Z)
    ∧ (∀ b, b ∈ pre ++ rest → (label b ≤ label m')%Z).
Proof.
  revert pre m i. induction rest as [|c rest IH]; intros pre m i Hi Hlt Hle.
  { simpl. rewrite app_nil_r. eauto. }
  simpl. rewrite (cons_middle c pre rest), app_assoc.
  destruct (Z.gtb_spec (label c) (label m)) as [Hgt|Hngt].
  - rewrite keep_greater_gt by done. apply (IH (pre ++ [c]) c (length pre)).
    + by rewrite lookup_app_r, Nat.sub_diag.
    + intros j b Hj Hjlt. rewrite lookup_app_l in Hj by done.
      apply list_elem_of_lookup_2, Hle in Hj. lia.
    + intros b [Hb%Hle| ->%list_elem_of_singleton]%elem_of_app; lia.
  - rewrite keep_greater_le by done. apply (IH (pre ++ [c]) m i).
    + apply lookup_app_l_Some, Hi.
    + intros j b Hj Hjlt. apply (Hlt j); [|done].
      apply lookup_lt_Some in Hi. by rewrite lookup_app_l in Hj by lia.
    + intros b [Hb%Hle| ->%list_elem_of_singleton]%elem_of_app; lia.
Qed.

Lemma py_remove_first (x : Tree) (bs : list Tree) (i : nat) :
  bs !! i = Some x →
  (∀ j b, bs !! j = Some b → j < i → b ≠ x) →
  py_remove x bs = Some (delete i bs).
Proof.
  revert i. induction bs as [|b bs IH]; intros i Hi Hne; [done|].
  simpl. destruct i as [|i]; simpl in Hi.
  - injection Hi as ->. by rewrite (proj2 (Tree_eqb_eq x x)).
  - destruct (Tree_eqb b x) eqn:Heq.
    + apply Tree_eqb_eq in Heq. destruct (Hne 0 b); [done|lia|done].
    + rewrite (IH i); [done|done|].
      intros j c Hj Hjlt. apply (Hne (S j)); [done|lia].
Qed.

(** The branch removed by one pass of the loop is the one at the first
    position of greatest label, the place [max] took it from: comparing
    structures or identities makes no difference to [remove] here. *)
Lemma py_remove_max_position (bs : list Tree) (largest : Tree) :
  py_max_key bs = Some largest →
  ∃ i,
    bs !! i = Some largest
    ∧ (∀ j b, bs !! j = Some b → j < i → (label b < label largest)%Z)
    ∧ (∀ b, b ∈ bs → (label b ≤ label largest)%Z)
    ∧ py_remove largest bs = Some (delete i bs).
Proof.
  destruct bs as [|b rest]; [done|]. intros [= <-].
  destruct (py_max_key_scan rest [b] b 0) as (i & Hi & Hlt & Hle).
  - done.
  - intros j c _ Hj. lia.
  - intros c ->%list_elem_of_singleton. lia.
  - exists i. split_and!; [done..|].
    apply py_remove_first; [done|].
    intros j c Hj Hjlt ->. specialize (Hlt j _ Hj Hjlt). lia.
Qed.

(** One pass of the loop body never fails on a non-empty list. *)
Lemma prune_step (bs : list Tree) :
  bs ≠ [] →
  ∃ largest bs',
    py_max_key bs = Some largest ∧ py_remove largest bs = Some bs'
    ∧ bs' `sublist_of` bs ∧ length bs = S (length bs').
Proof.
  intros [largest Hmax]%py_max_key_is_Some.
  destruct (py_remove_elem_of largest bs) as [bs' Hrem];
    [by apply py_max_key_elem_of|].
  exists largest, bs'. split_and!; [done..| |]; by eapply py_remove_sublist.
Qed.

(** ** prune_small: the loop *)

Lemma prune_while_eq (fuel : nat) (bs : list Tree) (n : Z) :
  prune_while fuel bs n
  = if (Z.of_nat (length bs) >? n)%Z then
      match fuel with
      | O => (bs, Timeout)
      | S fuel' =>
          match py_max_key bs with
          | None => (bs, Raises ValueError)
          | Some largest =>
              match py_remove largest bs with
              | None => (bs, Raises ValueError)
              | Some bs' => prune_while fuel' bs' n
              end
          end
      end
    else (bs, Returns tt).
Proof. by destruct fuel. Qed.

Lemma prune_while_returns (n : Z) (fuel : nat) (bs : list Tree) :
  (0 ≤ n)%Z → length bs ≤ fuel →
  ∃ kept,
    prune_while fuel bs n = (kept, Returns tt)
    ∧ kept `sublist_of` bs
    ∧ (Z.of_nat (length kept) ≤ n)%Z.
Proof.
  intros Hn. revert bs. induction fuel as [|fuel IH]; intros bs Hlen;
    rewrite prune_while_eq;
    (destruct (Z.gtb_spec (Z.of_nat (length bs)) n) as [Hgt|Hle];
     [|by exists bs]).
  - lia.
  - destruct (prune_step bs) as (largest & bs' & -> & -> & Hsub & Hlen').
    { intros ->. simpl in Hgt. lia. }
    destruct (IH bs') as (kept & -> & Hkept & Hbound); [lia|].
    exists kept. split_and!; [done| |done]. by etrans.
Qed.

Lemma prune_while_raises (n : Z) (fuel : nat) (bs : list Tree) :
  (n < 0)%Z → length bs < fuel →
  prune_while fuel bs n = ([], Raises ValueError).
Proof.
  intros Hn. revert bs. induction fuel as [|fuel IH]; intros bs Hlen; [lia|].
  rewrite prune_while_eq.
  destruct (Z.gtb_spec (Z.of_nat (length bs)) n) as [_|Hle]; [|lia].
  destruct bs as [|b rest]; [done|].
  destruct (prune_step (b :: rest)) as (largest & bs' & -> & -> & _ & Hlen');
    [done|].
  apply IH. lia.
Qed.

Lemma prune_while_fuel_mono (n : Z) (fuel fuel' : nat) (bs : list Tree) :
  fuel ≤ fuel' →
  snd (prune_while fuel bs n) ≠ Timeout →
  prune_while fuel' bs n = prune_while fuel bs n.
Proof.
  revert fuel' bs. induction fuel as [|fuel IH]; intros fuel' bs Hle;
    rewrite (prune_while_eq fuel'), (prune_while_eq _ bs);
    destruct (Z.of_nat (length bs) >? n)%Z; try done.
  destruct fuel' as [|fuel']; [lia|].
  destruct (py_max_key bs) as [largest|]; [|done].
  destruct (py_remove largest bs) as [bs'|]; [|done].
  apply IH. lia.
Qed.

(** ** prune_small: the recursion *)

Lemma prune_small_S (fuel : nat) (t : Tree) (n : Z) :
  prune_small (S fuel) t n
  = match prune_while fuel (branches t) n with
    | (bs, Returns _) =>
        let '(bs', o) := for_each (fun b => prune_small fuel b n) bs in
        (Node (label t) bs', o)
    | (bs, o) => (Node (label t) bs, o)
    end.
Proof. reflexivity. Qed.

Lemma prune_small_fuel_mono (n : Z) (fuel fuel' : nat) (t : Tree) :
  fuel ≤ fuel' →
  snd (prune_small fuel t n) ≠ Timeout →
  prune_small fuel' t n = prune_small fuel t n.
Proof.
  revert fuel' t. induction fuel as [|fuel IH]; intros fuel' t Hle; [done|].
  destruct fuel' as [|fuel']; [lia|]. rewrite !prune_small_S.
  destruct (prune_while fuel (branches t) n) as [bs o] eqn:Hwhile.
  assert (Hmono : o ≠ Timeout →
                  prune_while fuel' (branches t) n = (bs, o)).
  { intros Ho. rewrite <- Hwhile. apply prune_while_fuel_mono; [lia|].
    by rewrite Hwhile. }
  destruct o as [[]|e|]; simpl; [| |done].
  - rewrite Hmono by done.
    destruct (for_each (fun b => prune_small fuel b n) bs) as [bs' o'] eqn:Hfor.
    simpl. intros Ho'.
    rewrite (for_each_ext (fun b => prune_small fuel b n)), Hfor; [done| |].
    + apply Forall_true. intros b. apply IH. lia.
    + by rewrite Hfor.
  - by rewrite Hmono.
Qed.

Lemma length_le_sum_size (bs : list Tree) :
  length bs ≤ sum_list (size <$> bs).
Proof.
  induction bs as [|[l cs] bs IH]; csimpl; lia.
Qed.

Lemma size_le_sum_size (b : Tree) (bs : list Tree) :
  b ∈ bs → size b ≤ sum_list (size <$> bs).
Proof.
  induction 1 as [b bs|b c bs _ IH]; csimpl; lia.
Qed.

(** With [n >= 0] and enough fuel the call returns; the branches left at
    the root are the pruned versions of a subsequence of the branches. *)
Lemma prune_small_returns (n : Z) (t : Tree) :
  (0 ≤ n)%Z →
  ∀ fuel, size t < fuel →
    ∃ kept,
      kept `sublist_of` branches t
      ∧ (Z.of_nat (length kept) ≤ n)%Z
      ∧ prune_small fuel t n
        = (Node (label t) ((fun b => fst (prune_small fuel b n)) <$> kept),
           Returns tt).
Proof.
  intros Hn. induction t as [l bs IH] using Tree_nested_ind.
  intros [|fuel] Hsize; [lia|]. rewrite prune_small_S.
  cbn [branches label]. simpl in Hsize.
  pose proof (length_le_sum_size bs) as Hlen.
  destruct (prune_while_returns n fuel bs) as (kept & -> & Hsub & Hbound);
    [done|lia|].
  assert (Hret : Forall (fun b => snd (prune_small fuel b n) = Returns tt) kept).
  { apply Forall_forall. intros b Hb%(sublist_subseteq _ _ Hsub).
    rewrite Forall_forall in IH.
    pose proof (size_le_sum_size b bs Hb).
    destruct (IH b Hb fuel) as (? & _ & _ & ->); [lia|done]. }
  rewrite for_each_returns by done.
  exists kept. split_and!; [done..|]. do 2 f_equal.
  apply Forall_fmap_ext_1. eapply Forall_impl; [exact Hret|].
  intros b Hb. simpl in Hb.
  rewrite (prune_small_fuel_mono n fuel (S fuel)); [done|lia|].
  by rewrite Hb.
Qed.

(** With [n < 0] the loop empties the root's branches and then calls [max]
    on the empty list. *)
Lemma prune_small_raises (n : Z) (t : Tree) (fuel : nat) :
  (n < 0)%Z → size t < fuel →
  prune_small fuel t n = (Node (label t) [], Raises ValueError).
Proof.
  intros Hn Hsize. destruct fuel as [|fuel]; [lia|].
  rewrite prune_small_S. destruct t as [l bs]. cbn [branches label].
  simpl in Hsize. pose proof (length_le_sum_size bs).
  by rewrite prune_while_raises by (done || lia).
Qed.

(** ** The claims about prune_small *)

(** C1, the claim as stated fails: after [prune_small(t, 1)] on the tree
    of the concrete scenario the root's branches are not
    [[Tree(2, [Tree(5)])]]. *)
Lemma prune_small_example_not_5 :
  snd (prune_small 6 example_tree 1) = Returns tt
  ∧ branches (fst (prune_small 6 example_tree 1)) ≠ [Node 2 [Node 5 []]].
Proof. split; [reflexivity|]. vm_compute. discriminate. Qed.

(** C1, as amended: after [prune_small(t, 1)] on the tree of the concrete
    scenario the root's branches equal [[Tree(2, [Tree(4)])]]: the root
    keeps the branch labelled 2 and that branch keeps its child labelled
    4, the greater label being the one removed each time. *)
Theorem prune_small_example (fuel : nat) :
  size example_tree < fuel →
  prune_small fuel example_tree 1 = (Node 1 [Node 2 [Node 4 []]], Returns tt).
Proof.
  intros Hsize.
  rewrite (prune_small_fuel_mono 1 6 fuel); [reflexivity| |discriminate].
  change (size example_tree) with 5 in Hsize. lia.
Qed.

Lemma prune_small_example_witness :
  size example_tree < 6
  ∧ prune_small 6 example_tree 1 = (Node 1 [Node 2 [Node 4 []]], Returns tt).
Proof.
  assert (H : size example_tree < 6) by (vm_compute; lia).
  split; [exact H | exact (prune_small_example 6 H)].
Defined.

(** C3, the claim as stated fails: with [n = -1] on a root with one leaf,
    [prune_small] removes the leaf and then raises [ValueError]; the call
    has failed and the tree is not the one it was given. *)
Lemma prune_small_partial_mutation :
  let t := Node 1 [Node 2 []] in
  prune_small 3 t (-1) = (Node 1 [], Raises ValueError)
  ∧ ¬ (snd (prune_small 3 t (-1)) = Returns tt
       ∨ fst (prune_small 3 t (-1)) = t).
Proof. simpl. split; [reflexivity|]. intros [?|?]; discriminate. Qed.

(** *** The limit on nested calls *)

Lemma height_branch (l : Z) (b : Tree) (bs : list Tree) :
  b ∈ bs → height b < height (Node l bs).
Proof.
  intros Hb. cbn [height].
  pose proof (max_list_elem_of_le (S (height b))
                ((fun b => S (height b)) <$> bs)) as Hle.
  specialize (Hle (list_elem_of_fmap_2 (fun b => S (height b)) _ _ Hb)). lia.
Qed.

Lemma for_each_ext_all (body body' : Tree → Tree * outcome unit)
    (bs : list Tree) :
  Forall (fun b => body' b = body b) bs →
  for_each body' bs = for_each body bs.
Proof.
  induction 1 as [|b bs Hb _ IH]; [done|]. simpl. by rewrite Hb, IH.
Qed.

Lemma for_each_raises (body : Tree → Tree * outcome unit) (e : exn)
    (bs : list Tree) :
  Forall (fun b => snd (body b) = Returns tt ∨ snd (body b) = Raises e) bs →
  Exists (fun b => snd (body b) = Raises e) bs →
  snd (for_each body bs) = Raises e.
Proof.
  induction 1 as [|b bs Hb _ IH]; intros Hex; [by inversion Hex|].
  simpl. destruct (body b) as [b' o] eqn:Hbody. simpl in Hb.
  destruct Hb as [->| ->]; [|done].
  destruct (for_each body bs) as [rest' o']. simpl in *.
  apply IH. inversion Hex as [? ? Hhere|]; subst; [|done].
  rewrite Hbody in Hhere. discriminate Hhere.
Qed.

Lemma label_squarer_in_S (frames : nat) (t : Tree) :
  label_squarer_in (S frames) t
  = let '(bs', o) := for_each (label_squarer_in frames) (branches t) in
    (Node (label t ^ 2) bs', o).
Proof. reflexivity. Qed.

(** With room for every nested call the limited call is the call. *)
Lemma label_squarer_in_enough (frames : nat) (t : Tree) :
  height t < frames → label_squarer_in frames t = label_squarer t.
Proof.
  revert t. induction frames as [|frames IH]; intros [l bs] Hheight; [lia|].
  rewrite label_squarer_in_S. cbn [branches label label_squarer].
  rewrite (for_each_ext_all label_squarer (label_squarer_in frames)); [done|].
  apply Forall_forall. intros b Hb. apply IH.
  pose proof (height_branch l b bs Hb). lia.
Qed.

(** Without that room it raises [RecursionError]. *)
Lemma label_squarer_in_raises (frames : nat) (t : Tree) :
  frames ≤ height t →
  snd (label_squarer_in frames t) = Raises RecursionError.
Proof.
  revert t. induction frames as [|frames IH]; intros [l bs] Hheight; [done|].
  rewrite label_squarer_in_S. cbn [branches label].
  destruct (for_each (label_squarer_in frames) bs) as [bs' o] eqn:Hfor.
  cbn [snd]. change o with (snd (bs', o)). rewrite <- Hfor.
  apply for_each_raises.
  - apply Forall_forall. intros b _.
    destruct (decide (height b < frames)) as [Hlt|Hge].
    + left. rewrite label_squarer_in_enough by done.
      apply label_squarer_returns.
    + right. apply IH. lia.
  - cbn [height] in Hheight.
    assert (Hne : (fun b => S (height b)) <$> bs ≠ []).
    { intros Hnil. rewrite Hnil in Hheight. simpl in Hheight. lia. }
    apply max_list_elem_of, list_elem_of_fmap in Hne as (b & Hmax & Hb).
    apply Exists_exists. exists b. split; [done|]. apply IH. lia.
Qed.

Lemma py_max_key_in_enough (key_frames frames : nat) (bs : list Tree) :
  key_frames ≤ frames →
  py_max_key_in key_frames frames bs
  = match py_max_key bs with
    | None => Raises ValueError
    | Some largest => Returns largest
    end.
Proof.
  intros Hle. unfold py_max_key_in.
  destruct (py_max_key bs); [|done]. by destruct (Nat.ltb_spec frames key_frames); [lia|].
Qed.

Lemma prune_while_in_eq (key_frames frames fuel : nat) (bs : list Tree)
    (n : Z) :
  prune_while_in key_frames frames fuel bs n
  = if (Z.of_nat (length bs) >? n)%Z then
      match fuel with
      | O => (bs, Timeout)
      | S fuel' =>
          match py_max_key_in key_frames frames bs with
          | Returns largest =>
              match py_remove largest bs with
              | None => (bs, Raises ValueError)
              | Some bs' => prune_while_in key_frames frames fuel' bs' n
              end
          | Raises e => (bs, Raises e)
          | Timeout => (bs, Timeout)
          end
      end
    else (bs, Returns tt).
Proof. by destruct fuel. Qed.

Lemma prune_while_in_enough (key_frames frames fuel : nat) (bs : list Tree)
    (n : Z) :
  key_frames ≤ frames →
  prune_while_in key_frames frames fuel bs n = prune_while fuel bs n.
Proof.
  intros Hle. revert bs. induction fuel as [|fuel IH]; intros bs;
    rewrite prune_while_in_eq, prune_while_eq; [done|].
  destruct (Z.of_nat (length bs) >? n)%Z; [|done].
  rewrite py_max_key_in_enough by done.
  destruct (py_max_key bs) as [largest|]; [|done].
  destruct (py_remove largest bs) as [bs'|]; [|done].
  apply IH.
Qed.

Lemma prune_while_sublist (fuel : nat) (bs : list Tree) (n : Z) :
  fst (prune_while fuel bs n) `sublist_of` bs.
Proof.
  revert bs. induction fuel as [|fuel IH]; intros bs; rewrite prune_while_eq;
    destruct (Z.of_nat (length bs) >? n)%Z; try done.
  destruct (py_max_key bs) as [largest|]; [|done].
  destruct (py_remove largest bs) as [bs'|] eqn:Hrem; [|done].
  apply py_remove_sublist in Hrem as [Hsub _]. by etrans; [apply IH|].
Qed.

Lemma prune_small_in_S (key_frames frames fuel : nat) (t : Tree) (n : Z) :
  prune_small_in key_frames (S frames) (S fuel) t n
  = match prune_while_in key_frames frames fuel (branches t) n with
    | (bs, Returns _) =>
        let '(bs', o) :=
          for_each (fun b => prune_small_in key_frames frames fuel b n) bs in
        (Node (label t) bs', o)
    | (bs, o) => (Node (label t) bs, o)
    end.
Proof. reflexivity. Qed.

(** With room for every nested call, and for the key function of [max] at
    the deepest node, the limited call is the call. *)
Lemma prune_small_in_enough (key_frames frames fuel : nat) (t : Tree) (n : Z) :
  height t + key_frames < frames →
  prune_small_in key_frames frames fuel t n = prune_small fuel t n.
Proof.
  revert t fuel. induction frames as [|frames IH]; intros t fuel Hheight;
    [lia|].
  destruct fuel as [|fuel]; [done|].
  rewrite prune_small_in_S, prune_small_S, prune_while_in_enough by lia.
  pose proof (prune_while_sublist fuel (branches t) n) as Hsub.
  destruct (prune_while fuel (branches t) n) as [bs [[]|e|]]; try done.
  cbn [fst] in Hsub.
  rewrite (for_each_ext_all (fun b => prune_small fuel b n)
             (fun b => prune_small_in key_frames frames fuel b n)); [done|].
  apply Forall_forall. intros b Hb%(sublist_subseteq _ _ Hsub). apply IH.
  destruct t as [l bs0]. pose proof (height_branch l b bs0 Hb). lia.
Qed.

(** The limit is reached with the upper nodes already changed. *)
Example label_squarer_in_partial :
  label_squarer_in 2 (Node 2 [Node 3 [Node 4 []]])
  = (Node 4 [Node 9 [Node 4 []]], Raises RecursionError).
Proof. reflexivity. Qed.

Example prune_small_in_partial :
  prune_small_in 1 3 7 (Node 0 [Node 5 []; Node 1 [Node 2 [Node 3 []]]]) 1
  = (Node 0 [Node 1 [Node 2 [Node 3 []]]], Raises RecursionError).
Proof. reflexivity. Qed.

(** C3, as amended: [label_squarer(t)] completes without raising exactly
    when the interpreter can still nest more calls than [t] has levels
    below its root; otherwise it raises [RecursionError], and unless no
    call at all was possible the root's label is squared by then.  When
    the calls that can still be nested exceed the levels of [t] by what
    the key function of [max] needs, [prune_small(t, n)] completes without
    raising for every [n >= 0]; the code has no guard on [n], and for
    [n < 0] it raises [ValueError] after it has removed every branch of
    the root. *)
Theorem mutators_total (key_frames frames fuel : nat) (t : Tree) (n : Z) :
  size t < fuel →
  label_squarer_in frames t
  = (if height t <? frames then (fst (label_squarer t), Returns tt)
     else (fst (label_squarer_in frames t), Raises RecursionError))
  ∧ label (fst (label_squarer_in frames t))
    = (if frames =? 0 then label t else (label t ^ 2)%Z)
  ∧ (height t + key_frames < frames →
     prune_small_in key_frames frames fuel t n
     = if (0 <=? n)%Z then (fst (prune_small fuel t n), Returns tt)
       else (Node (label t) [], Raises ValueError)).
Proof.
  intros Hsize. split_and!.
  - destruct (Nat.ltb_spec (height t) frames) as [Hlt|Hge].
    + rewrite label_squarer_in_enough by done.
      rewrite <- (label_squarer_returns t). by destruct (label_squarer t).
    + rewrite <- (label_squarer_in_raises frames t Hge).
      by destruct (label_squarer_in frames t).
  - destruct frames as [|frames]; [done|]. rewrite label_squarer_in_S.
    by destruct (for_each _ (branches t)).
  - intros Hframes. rewrite prune_small_in_enough by done.
    destruct (Z.leb_spec 0 n) as [Hn|Hn].
    + by destruct (prune_small_returns n t Hn fuel Hsize) as (? & _ & _ & ->).
    + by apply prune_small_raises.
Qed.

Lemma mutators_total_witness :
  size example_tree < 6
  ∧ height example_tree + 1 < 4
  ∧ label_squarer_in 4 example_tree
    = (if height example_tree <? 4
       then (fst (label_squarer example_tree), Returns tt)
       else (fst (label_squarer_in 4 example_tree), Raises RecursionError))
  ∧ label (fst (label_squarer_in 4 example_tree))
    = (if 4 =? 0 then label example_tree else (label example_tree ^ 2)%Z)
  ∧ prune_small_in 1 4 6 example_tree 1
    = if (0 <=? 1)%Z then (fst (prune_small 6 example_tree 1), Returns tt)
      else (Node (label example_tree) [], Raises ValueError).
Proof.
  assert (H : size example_tree < 6) by (vm_compute; lia).
  assert (Hframes : height example_tree + 1 < 4) by (vm_compute; lia).
  split; [exact H|]. split; [exact Hframes|].
  destruct (mutators_total 1 4 6 example_tree 1 H) as (Hsq & Hroot & Hprune).
  split; [exact Hsq|]. split; [exact Hroot | exact (Hprune Hframes)].
Defined.

Lemma prune_small_branch_size (b : Tree) (kept : list Tree) (t : Tree)
    (fuel : nat) :
  kept `sublist_of` branches t → b ∈ kept → size t < fuel →
  b ∈ branches t ∧ size b < fuel.
Proof.
  intros Hsub Hb%(sublist_subseteq _ _ Hsub) Hsize. split; [done|].
  destruct t as [l bs]. simpl in *.
  pose proof (size_le_sum_size b bs Hb). lia.
Qed.

(** C4: for [n >= 0], [prune_small(t, n)] returns (any budget above the
    number of nodes of [t] is enough); afterwards every node of the tree
    has at most [n] branches, and every branch left at a node comes from
    a branch the node had before. *)
Theorem prune_small_bounds_branches (t : Tree) (n : Z) (fuel : nat) :
  (0 ≤ n)%Z → size t < fuel →
  ∃ t' : Tree,
    prune_small fuel t n = (t', Returns tt)
    ∧ every_node (fun v => (Z.of_nat (length (branches v)) ≤ n)%Z) t'
    ∧ thinned t t'.
Proof.
  intros Hn. revert fuel. induction t as [l bs IH] using Tree_nested_ind.
  intros fuel Hsize.
  destruct (prune_small_returns n (Node l bs) Hn fuel Hsize)
    as (kept & Hsub & Hbound & Hrun).
  eexists. split; [exact Hrun|]. cbn [label].
  assert (Hkept : Forall (fun b =>
            every_node (fun v => (Z.of_nat (length (branches v)) ≤ n)%Z)
              (fst (prune_small fuel b n))
            ∧ Exists (fun b0 => thinned b0 (fst (prune_small fuel b n))) bs)
            kept).
  { apply Forall_forall. intros b Hb.
    destruct (prune_small_branch_size b kept (Node l bs) fuel) as [Hin Hfuel];
      [done..|].
    rewrite Forall_forall in IH.
    destruct (IH b Hin fuel Hfuel) as (b' & -> & Hevery & Hthin).
    split; [done|]. apply Exists_exists. eauto. }
  apply Forall_and in Hkept as [Hevery Hthin]. split.
  - constructor.
    + cbn [branches]. by rewrite length_fmap.
    + by apply Forall_fmap.
  - constructor. by apply Forall_fmap.
Qed.

Lemma prune_small_bounds_branches_witness :
  (0 ≤ 1)%Z ∧ size example_tree < 6
  ∧ ∃ t' : Tree,
      prune_small 6 example_tree 1 = (t', Returns tt)
      ∧ every_node (fun v => (Z.of_nat (length (branches v)) ≤ 1)%Z) t'
      ∧ thinned example_tree t'.
Proof.
  assert (Hn : (0 ≤ 1)%Z) by lia.
  assert (H : size example_tree < 6) by (vm_compute; lia).
  split; [exact Hn|].
  split; [exact H | exact (prune_small_bounds_branches example_tree 1 6 Hn H)].
Defined.

(** C10: for [n >= 0], the branches left at the root by
    [prune_small(t, n)] are the pruned versions, each pruned with the
    same [n], of a subsequence of the root's branches: original order,
    none twice; and the same holds at every node below. *)
Theorem prune_small_keeps_subsequence (t : Tree) (n : Z) (fuel : nat) :
  (0 ≤ n)%Z → size t < fuel →
  thinned_in_order t (fst (prune_small fuel t n))
  ∧ ∃ kept : list Tree,
      kept `sublist_of` branches t
      ∧ branches (fst (prune_small fuel t n))
        = (fun b => fst (prune_small fuel b n)) <$> kept.
Proof.
  intros Hn Hsize. split.
  - revert fuel Hsize. induction t as [l bs IH] using Tree_nested_ind.
    intros fuel Hsize.
    destruct (prune_small_returns n (Node l bs) Hn fuel Hsize)
      as (kept & Hsub & _ & ->).
    cbn [fst label]. apply thinned_in_order_node with kept; [done|].
    apply Forall2_fmap_r, Forall_Forall2_diag, Forall_forall. intros b Hb.
    destruct (prune_small_branch_size b kept (Node l bs) fuel) as [Hin Hfuel];
      [done..|].
    rewrite Forall_forall in IH. by apply IH.
  - destruct (prune_small_returns n t Hn fuel Hsize)
      as (kept & Hsub & _ & ->).
    by exists kept.
Qed.

Lemma prune_small_keeps_subsequence_witness :
  (0 ≤ 1)%Z ∧ size example_tree < 6
  ∧ thinned_in_order example_tree (fst (prune_small 6 example_tree 1))
  ∧ ∃ kept : list Tree,
      kept `sublist_of` branches example_tree
      ∧ branches (fst (prune_small 6 example_tree 1))
        = (fun b => fst (prune_small 6 b 1)) <$> kept.
Proof.
  assert (Hn : (0 ≤ 1)%Z) by lia.
  assert (H : size example_tree < 6) by (vm_compute; lia).
  split; [exact Hn|].
  split; [exact H | exact (prune_small_keeps_subsequence example_tree 1 6 Hn H)].
Defined.

(** * Further properties of the code *)

(** ** max_path_sum is the greatest root-to-leaf sum *)

Lemma py_max_elem_of (first : Z) (rest : list Z) :
  py_max first rest ∈ first :: rest.
Proof.
  unfold py_max. revert first.
  induction rest as [|z rest IH]; intros first; simpl; [by left|].
  specialize (IH (first `max` z)%Z).
  apply elem_of_cons in IH as [->|Hin]; [|by do 2 right].
  destruct (Z.max_spec first z) as [[_ ->]|[_ ->]]; [right|]; by left.
Qed.

Lemma py_max_upper_bound (first : Z) (rest : list Z) (z : Z) :
  z ∈ first :: rest → (z ≤ py_max first rest)%Z.
Proof.
  unfold py_max. revert first.
  induction rest as [|y rest IH]; intros first.
  - intros ->%list_elem_of_singleton. simpl. lia.
  - intros Hz. simpl.
    pose proof (py_max_ge_first (first `max` y)%Z rest) as Hge.
    unfold py_max in Hge.
    apply elem_of_cons in Hz as [->|[->|Hz]%elem_of_cons]; [lia..|].
    apply IH. by right.
Qed.

Lemma leaf_paths_branches (l : Z) (b : Tree) (rest : list Tree) :
  leaf_paths (Node l (b :: rest))
  = cons l <$> concat (leaf_paths <$> (b :: rest)).
Proof. reflexivity. Qed.

(** X1: [max_path_sum(t)] is the sum of the labels along some root-to-leaf
    path of [t], and no root-to-leaf path has a greater sum. *)
Theorem max_path_sum_is_greatest (t : Tree) :
  (∃ p, p ∈ leaf_paths t ∧ path_sum p = max_path_sum t)
  ∧ (∀ p, p ∈ leaf_paths t → (path_sum p ≤ max_path_sum t)%Z).
Proof.
  induction t as [l bs IH] using Tree_nested_ind.
  destruct bs as [|b rest].
  { split.
    - exists [l]. split; [by left|]. simpl. lia.
    - intros p ->%list_elem_of_singleton. simpl. lia. }
  rewrite leaf_paths_branches. rewrite Forall_forall in IH.
  change (max_path_sum (Node l (b :: rest)))
    with (l + py_max (max_path_sum b) (max_path_sum <$> rest))%Z.
  split.
  - pose proof (py_max_elem_of (max_path_sum b) (max_path_sum <$> rest)) as Hin.
    rewrite <- fmap_cons in Hin.
    apply list_elem_of_fmap in Hin as (c & Hc & Hin).
    destruct (IH c Hin) as [(p & Hp & Hsum) _].
    exists (l :: p). split.
    + apply list_elem_of_fmap_2, elem_of_concat_fmap. eauto.
    + simpl. rewrite Hsum, Hc. done.
  - intros p' (p & -> & (c & Hin & Hp)%elem_of_concat_fmap)%list_elem_of_fmap.
    destruct (IH c Hin) as [_ Hle]. specialize (Hle p Hp).
    pose proof (py_max_upper_bound (max_path_sum b) (max_path_sum <$> rest)
                  (max_path_sum c)) as Hub.
    rewrite <- fmap_cons in Hub.
    specialize (Hub (list_elem_of_fmap_2 max_path_sum _ _ Hin)).
    simpl. lia.
Qed.

(** ** preorder lists every node once *)

Lemma sum_list_fmap_ext {A} (f g : A → nat) (bs : list A) :
  Forall (fun b => f b = g b) bs → sum_list (f <$> bs) = sum_list (g <$> bs).
Proof. induction 1 as [|b bs Hb _ IH]; [done|]. csimpl. by rewrite Hb, IH. Qed.

Lemma length_preorder (t : Tree) : length (preorder t) = size t.
Proof.
  induction t as [l bs IH] using Tree_nested_ind.
  rewrite preorder_node. simpl. f_equal.
  rewrite length_concat_fmap. by apply sum_list_fmap_ext.
Qed.

(** X2: [preorder(t)] has as many entries as [t] has nodes, and its entries
    are exactly the labels that occur in [t]. *)
Theorem preorder_length (t : Tree) :
  length (preorder t) = size t ∧ ∀ x, x ∈ preorder t ↔ has_label x t.
Proof.
  split; [apply length_preorder|]. intros x. symmetry.
  apply has_label_preorder.
Qed.

(** ** prune_small: which branches survive *)

Lemma prune_while_noop (fuel : nat) (bs : list Tree) (n : Z) :
  (Z.of_nat (length bs) ≤ n)%Z → prune_while fuel bs n = (bs, Returns tt).
Proof.
  intros Hle. rewrite prune_while_eq.
  by destruct (Z.gtb_spec (Z.of_nat (length bs)) n); [lia|].
Qed.

(** The loop keeps the branches of least label: the ones it removes have
    labels at least as great as any it keeps, and it removes no more
    than needed. *)
Lemma prune_while_smallest (n : Z) (fuel : nat) (bs : list Tree) :
  (0 ≤ n)%Z → length bs ≤ fuel →
  ∃ kept removed,
    prune_while fuel bs n = (kept, Returns tt)
    ∧ bs ≡ₚ kept ++ removed
    ∧ kept `sublist_of` bs
    ∧ length kept = length bs `min` Z.to_nat n
    ∧ ∀ k r, k ∈ kept → r ∈ removed → (label k ≤ label r)%Z.
Proof.
  intros Hn. revert bs. induction fuel as [|fuel IH]; intros bs Hlen;
    rewrite prune_while_eq;
    (destruct (Z.gtb_spec (Z.of_nat (length bs)) n) as [Hgt|Hle];
     [|exists bs, []; rewrite app_nil_r; split_and!;
       [done..|lia|by intros ?? _ ?%elem_of_nil]]).
  - lia.
  - destruct bs as [|b0 bs0]; [simpl in Hgt; lia|].
    destruct (py_max_key (b0 :: bs0)) as [largest|] eqn:Hmax; [|done].
    destruct (py_remove_max_position _ _ Hmax) as (i & Hi & _ & Hge & ->).
    pose proof (delete_Permutation _ _ _ Hi) as Hperm.
    pose proof (sublist_delete (b0 :: bs0) i) as Hsub.
    pose proof (length_delete _ _ (mk_is_Some _ _ Hi)) as Hdel.
    destruct (IH (delete i (b0 :: bs0)))
      as (kept & removed & -> & Hperm' & Hsub' & Hcount & Hord).
    { rewrite Hdel. lia. }
    exists kept, (largest :: removed). split_and!.
    + done.
    + by rewrite Hperm, Hperm', Permutation_middle.
    + by etrans.
    + rewrite Hcount, Hdel. rewrite length_cons in *. lia.
    + intros k r Hk [->|Hr]%elem_of_cons; [|by apply Hord].
      apply Hge. by apply (sublist_subseteq _ _ Hsub), (sublist_subseteq _ _ Hsub').
Qed.

(** The call at a node for [n >= 0]: the branches left are those the
    loop keeps, each pruned in turn. *)
Lemma prune_small_root (n : Z) (t : Tree) (fuel : nat) :
  (0 ≤ n)%Z → size t < fuel →
  prune_small fuel t n
  = (Node (label t)
       ((fun b => fst (prune_small fuel b n))
          <$> fst (prune_while (length (branches t)) (branches t) n)),
     Returns tt).
Proof.
  intros Hn Hsize. destruct fuel as [|fuel]; [lia|].
  destruct (prune_while_returns n (length (branches t)) (branches t))
    as (kept & Hwhile & Hsub & _); [done..|].
  assert (Hfuel : length (branches t) ≤ fuel).
  { destruct t as [l bs]. simpl in *.
    pose proof (length_le_sum_size bs). lia. }
  rewrite prune_small_S.
  rewrite (prune_while_fuel_mono n (length (branches t)) fuel)
    by (done || by rewrite Hwhile).
  rewrite Hwhile. change (fst (kept, Returns tt)) with kept.
  assert (Hret : Forall (fun b => snd (prune_small fuel b n) = Returns tt) kept).
  { apply Forall_forall. intros b Hb.
    destruct (prune_small_branch_size b kept t (S fuel)) as [Hin _]; [done..|].
    assert (size b < fuel).
    { destruct t as [l bs]. simpl in *.
      pose proof (size_le_sum_size b bs Hin). lia. }
    by destruct (prune_small_returns n b Hn fuel) as (? & _ & _ & ->). }
  rewrite for_each_returns by done. do 2 f_equal.
  apply Forall_fmap_ext_1. eapply Forall_impl; [exact Hret|].
  intros b Hb. simpl in Hb.
  rewrite (prune_small_fuel_mono n fuel (S fuel)); [done|lia|].
  by rewrite Hb.
Qed.

Lemma prune_small_label (fuel : nat) (t : Tree) (n : Z) :
  label (fst (prune_small fuel t n)) = label t.
Proof.
  destruct fuel as [|fuel]; [done|]. rewrite prune_small_S.
  destruct (prune_while fuel (branches t) n) as [bs [[]|e|]]; try done.
  by destruct (for_each _ bs).
Qed.

(** X3: [prune_small(t, n)] with [n >= 0] keeps the branches of least
    label at the root of [t], and so, [t] being any tree, at every node:
    [min(len(branches), n)] of them are left, their labels are unchanged,
    and every branch removed has a label at least as great as that of
    every branch kept. *)
Theorem prune_small_keeps_smallest (t : Tree) (n : Z) (fuel : nat) :
  (0 ≤ n)%Z → size t < fuel →
  ∃ kept removed,
    branches t ≡ₚ kept ++ removed
    ∧ length kept = length (branches t) `min` Z.to_nat n
    ∧ (∀ k r, k ∈ kept → r ∈ removed → (label k ≤ label r)%Z)
    ∧ label <$> branches (fst (prune_small fuel t n)) = label <$> kept.
Proof.
  intros Hn Hsize. rewrite prune_small_root by done.
  destruct (prune_while_smallest n (length (branches t)) (branches t))
    as (kept & removed & -> & Hperm & _ & Hcount & Hord); [done..|].
  exists kept, removed. split_and!; [done..|].
  cbn [fst branches]. rewrite <- list_fmap_compose.
  apply list_fmap_ext. intros i b _. apply prune_small_label.
Qed.

Lemma prune_small_keeps_smallest_witness :
  (0 ≤ 1)%Z ∧ size example_tree < 6
  ∧ ∃ kept removed,
      branches example_tree ≡ₚ kept ++ removed
      ∧ length kept = length (branches example_tree) `min` Z.to_nat 1
      ∧ (∀ k r, k ∈ kept → r ∈ removed → (label k ≤ label r)%Z)
      ∧ label <$> branches (fst (prune_small 6 example_tree 1))
        = label <$> kept.
Proof.
  assert (Hn : (0 ≤ 1)%Z) by lia.
  assert (H : size example_tree < 6) by (vm_compute; lia).
  split; [exact Hn|].
  split; [exact H | exact (prune_small_keeps_smallest example_tree 1 6 Hn H)].
Defined.

(** X4: [prune_small(t, 0)] removes every branch of [t]: [t] ends as a leaf
    with its label, and the call returns (it is [n < 0] that raises). *)
Theorem prune_small_zero (t : Tree) (fuel : nat) :
  size t < fuel → prune_small fuel t 0 = (Node (label t) [], Returns tt).
Proof.
  intros Hsize. rewrite prune_small_root by (done || lia).
  destruct (prune_while_smallest 0 (length (branches t)) (branches t))
    as (kept & removed & -> & _ & _ & Hcount & _); [lia|done|].
  rewrite Nat.min_0_r in Hcount. by apply nil_length_inv in Hcount as ->.
Qed.

Lemma prune_small_zero_witness :
  size example_tree < 6
  ∧ prune_small 6 example_tree 0 = (Node (label example_tree) [], Returns tt).
Proof.
  assert (H : size example_tree < 6) by (vm_compute; lia).
  split; [exact H | exact (prune_small_zero example_tree 6 H)].
Defined.

Lemma fmap_fixed {A} (f : A → A) (l : list A) :
  Forall (fun x => f x = x) l → f <$> l = l.
Proof. induction 1 as [|x l Hx _ IH]; [done|]. csimpl. by rewrite Hx, IH. Qed.

(** ** prune_small: composition with itself and with preorder *)

Lemma concat_fmap_sublist_pointwise {A} (f g : A → list Z) (l : list A) :
  Forall (fun x => f x `sublist_of` g x) l →
  concat (f <$> l) `sublist_of` concat (g <$> l).
Proof.
  induction 1 as [|x l Hx _ IH]; [done|].
  rewrite !fmap_cons. simpl concat. by apply sublist_app.
Qed.

Lemma concat_fmap_sublist_mono {A} (g : A → list Z) (l1 l2 : list A) :
  l1 `sublist_of` l2 → concat (g <$> l1) `sublist_of` concat (g <$> l2).
Proof.
  induction 1 as [|x l1 l2 _ IH|x l1 l2 _ IH]; [done|..];
    rewrite !fmap_cons; simpl concat.
  - by apply sublist_app.
  - by apply sublist_inserts_l.
Qed.

Lemma prune_small_kept (n : Z) (t : Tree) :
  (0 ≤ n)%Z →
  ∃ kept,
    fst (prune_while (length (branches t)) (branches t) n) = kept
    ∧ kept `sublist_of` branches t
    ∧ (Z.of_nat (length kept) ≤ n)%Z.
Proof.
  intros Hn.
  destruct (prune_while_returns n (length (branches t)) (branches t))
    as (kept & -> & Hsub & Hbound); [done..|].
  by exists kept.
Qed.

Lemma prune_small_preorder_sublist (t : Tree) (n : Z) (fuel : nat) :
  (0 ≤ n)%Z → size t < fuel →
  preorder (fst (prune_small fuel t n)) `sublist_of` preorder t.
Proof.
  intros Hn. revert fuel. induction t as [l bs IH] using Tree_nested_ind.
  intros fuel Hsize. rewrite prune_small_root by done.
  destruct (prune_small_kept n (Node l bs) Hn) as (kept & -> & Hsub & _).
  cbn [fst label branches] in *. rewrite !preorder_node.
  apply sublist_skip. rewrite <- list_fmap_compose.
  etrans; [|by apply concat_fmap_sublist_mono].
  apply concat_fmap_sublist_pointwise, Forall_forall. intros b Hb.
  destruct (prune_small_branch_size b kept (Node l bs) fuel) as [Hin Hfuel];
    [done..|].
  rewrite Forall_forall in IH. by apply IH.
Qed.

Lemma prune_small_size (t : Tree) (n : Z) (fuel : nat) :
  (0 ≤ n)%Z → size t < fuel → size (fst (prune_small fuel t n)) ≤ size t.
Proof.
  intros Hn Hsize. rewrite <- !length_preorder.
  by apply sublist_length, prune_small_preorder_sublist.
Qed.

(** X7: The labels listed by [preorder] after [prune_small(t, n)] are a
    subsequence of those listed before: pruning removes nodes, and neither
    reorders nor relabels the ones it leaves.  The root stays, so the
    listing still starts with [t.label]. *)
Theorem prune_small_preorder (t : Tree) (n : Z) (fuel : nat) :
  (0 ≤ n)%Z → size t < fuel →
  preorder (fst (prune_small fuel t n)) `sublist_of` preorder t
  ∧ head (preorder (fst (prune_small fuel t n))) = Some (label t)
  ∧ size (fst (prune_small fuel t n)) ≤ size t.
Proof.
  intros Hn Hsize. split_and!.
  - by apply prune_small_preorder_sublist.
  - pose proof (prune_small_label fuel t n) as Hlabel.
    destruct (fst (prune_small fuel t n)) as [l' bs'].
    rewrite preorder_node. simpl in *. by rewrite Hlabel.
  - by apply prune_small_size.
Qed.

Lemma prune_small_preorder_witness :
  (0 ≤ 1)%Z ∧ size example_tree < 6
  ∧ preorder (fst (prune_small 6 example_tree 1))
    `sublist_of` preorder example_tree
  ∧ head (preorder (fst (prune_small 6 example_tree 1)))
    = Some (label example_tree)
  ∧ size (fst (prune_small 6 example_tree 1)) ≤ size example_tree.
Proof.
  assert (Hn : (0 ≤ 1)%Z) by lia.
  assert (H : size example_tree < 6) by (vm_compute; lia).
  split; [exact Hn|].
  split; [exact H | exact (prune_small_preorder example_tree 1 6 Hn H)].
Defined.

Lemma prune_small_every_node (t : Tree) (n : Z) (fuel : nat) :
  (0 ≤ n)%Z → size t < fuel →
  every_node (fun v => (Z.of_nat (length (branches v)) ≤ n)%Z)
    (fst (prune_small fuel t n)).
Proof.
  intros Hn. revert fuel. induction t as [l bs IH] using Tree_nested_ind.
  intros fuel Hsize. rewrite prune_small_root by done.
  destruct (prune_small_kept n (Node l bs) Hn) as (kept & -> & Hsub & Hbound).
  cbn [fst label branches] in *. constructor.
  - cbn [branches]. by rewrite length_fmap.
  - apply Forall_fmap, Forall_forall. intros b Hb.
    destruct (prune_small_branch_size b kept (Node l bs) fuel) as [Hin Hfuel];
      [done..|].
    rewrite Forall_forall in IH. by apply IH.
Qed.

Lemma prune_small_noop_every_node (t : Tree) (n : Z) (fuel : nat) :
  every_node (fun v => (Z.of_nat (length (branches v)) ≤ n)%Z) t →
  size t < fuel →
  prune_small fuel t n = (t, Returns tt).
Proof.
  revert fuel. induction t as [l bs IH] using Tree_nested_ind.
  intros fuel Hevery Hsize.
  inversion Hevery as [l' bs' Hroot Hbs]; subst. cbn [branches] in Hroot.
  rewrite prune_small_root by (done || lia). cbn [branches label].
  rewrite prune_while_noop by done. cbn [fst]. do 2 f_equal.
  apply fmap_fixed, Forall_forall. intros b Hb.
  rewrite Forall_forall in IH, Hbs.
  rewrite IH; [done..|by apply Hbs|].
  simpl in Hsize. pose proof (size_le_sum_size b bs Hb). lia.
Qed.

(** X6: [prune_small] is idempotent for [n >= 0]: pruning a pruned tree again
    with the same [n] returns and changes nothing. *)
Theorem prune_small_idempotent (t : Tree) (n : Z) (fuel : nat) :
  (0 ≤ n)%Z → size t < fuel →
  prune_small fuel (fst (prune_small fuel t n)) n
  = (fst (prune_small fuel t n), Returns tt).
Proof.
  intros Hn Hsize. apply prune_small_noop_every_node.
  - by apply prune_small_every_node.
  - pose proof (prune_small_size t n fuel Hn Hsize). lia.
Qed.

Lemma prune_small_idempotent_witness :
  (0 ≤ 1)%Z ∧ size example_tree < 6
  ∧ prune_small 6 (fst (prune_small 6 example_tree 1)) 1
    = (fst (prune_small 6 example_tree 1), Returns tt).
Proof.
  assert (Hn : (0 ≤ 1)%Z) by lia.
  assert (H : size example_tree < 6) by (vm_compute; lia).
  split; [exact Hn|].
  split; [exact H | exact (prune_small_idempotent example_tree 1 6 Hn H)].
Defined.

(** X5: For [n >= 0], [prune_small(t, n)] leaves the tree as it is exactly
    when every node already has at most [n] branches. *)
Theorem prune_small_noop (t : Tree) (n : Z) (fuel : nat) :
  (0 ≤ n)%Z → size t < fuel →
  prune_small fuel t n = (t, Returns tt)
  ↔ every_node (fun v => (Z.of_nat (length (branches v)) ≤ n)%Z) t.
Proof.
  intros Hn Hsize. split.
  - intros Hrun. pose proof (prune_small_every_node t n fuel Hn Hsize) as H.
    by rewrite Hrun in H.
  - intros Hevery. by apply prune_small_noop_every_node.
Qed.

Lemma prune_small_noop_witness :
  (0 ≤ 2)%Z ∧ size example_tree < 6
  ∧ (prune_small 6 example_tree 2 = (example_tree, Returns tt)
     ↔ every_node (fun v => (Z.of_nat (length (branches v)) ≤ 2)%Z)
         example_tree).
Proof.
  assert (Hn : (0 ≤ 2)%Z) by lia.
  assert (H : size example_tree < 6) by (vm_compute; lia).
  split; [exact Hn|].
  split; [exact H | exact (prune_small_noop example_tree 2 6 Hn H)].
Defined.

(** ** label_squarer and the other operations *)

Lemma label_squarer_preorder (t : Tree) :
  preorder (fst (label_squarer t)) = (fun l => l * l)%Z <$> preorder t.
Proof.
  induction t as [l bs IH] using Tree_nested_ind.
  rewrite label_squarer_node. cbn [fst].
  rewrite !preorder_node, fmap_cons, Z.pow_2_r. f_equal.
  rewrite <- list_fmap_compose.
  induction IH as [|b bs Hb _ IHbs]; [done|].
  rewrite !fmap_cons. simpl concat. by rewrite fmap_app, <- Hb, IHbs.
Qed.

Lemma nonneg_max_path_sum (t : Tree) :
  nonneg_labels t → (label t ≤ max_path_sum t)%Z.
Proof.
  induction t as [l bs IH] using Tree_nested_ind.
  intros [Hl Hbs]%nonneg_labels_node.
  destruct bs as [|b rest]; [simpl; lia|].
  apply Forall_cons in Hbs as [Hb _]. apply Forall_cons in IH as [IHb _].
  specialize (IHb Hb).
  assert (0 ≤ label b)%Z by (destruct b; by apply nonneg_labels_node in Hb as [? _]).
  pose proof (py_max_ge_first (max_path_sum b) (max_path_sum <$> rest)).
  change (max_path_sum (Node l (b :: rest)))
    with (l + py_max (max_path_sum b) (max_path_sum <$> rest))%Z.
  cbn [label]. lia.
Qed.

(** X9: After [label_squarer(t)] no label is negative, whatever the labels
    were, and so [max_path_sum] of the squared tree is at least the label
    of its root. *)
Theorem label_squarer_nonneg (t : Tree) :
  nonneg_labels (fst (label_squarer t))
  ∧ (max_path_sum (fst (label_squarer t)) >= label (fst (label_squarer t)))%Z.
Proof.
  assert (Hnn : nonneg_labels (fst (label_squarer t))).
  { unfold nonneg_labels. rewrite label_squarer_preorder.
    apply Forall_fmap, Forall_true. intros l. simpl. nia. }
  split; [done|]. apply nonneg_max_path_sum in Hnn. lia.
Qed.

Lemma find_path_is_Some (t : Tree) (x : Z) :
  is_Some (find_path t x) ↔ has_label x t.
Proof.
  rewrite find_path_first, has_label_node_path. unfold first_ending_at.
  rewrite fmap_is_Some. split.
  - intros [[i p] (Hi & Hlast & _)%list_find_Some].
    exists p. split; [by eapply list_elem_of_lookup_2|done].
  - intros (p & Hp & Hlast). by eapply list_find_elem_of.
Qed.

(** X10: A label that [find_path] finds in [t] has its square found in the
    tree left by [label_squarer(t)]. *)
Theorem find_path_after_label_squarer (t : Tree) (x : Z) :
  is_Some (find_path t x) →
  is_Some (find_path (fst (label_squarer t)) (x * x)).
Proof.
  rewrite !find_path_is_Some, !has_label_preorder, label_squarer_preorder.
  intros Hx. by apply (list_elem_of_fmap_2 (fun l => l * l)%Z).
Qed.

Lemma find_path_after_label_squarer_witness :
  is_Some (find_path example_tree 5)
  ∧ is_Some (find_path (fst (label_squarer example_tree)) (5 * 5)).
Proof.
  assert (H : is_Some (find_path example_tree 5)) by (by eexists).
  split; [exact H | exact (find_path_after_label_squarer example_tree 5 H)].
Defined.

(** ** Construction from the parts of a tree *)

(** X12: Building a tree from the label and the branches of a tree gives that
    tree back: the constructor keeps the children it is given, all of
    them, in order. *)
Theorem Tree_init_parts (t : Tree) :
  Tree_init (label t) (PyTree <$> branches t) = Returns t.
Proof.
  destruct t as [l bs]. unfold Tree_init. cbn [label branches].
  assert (Hassert : assert_branches (PyTree <$> bs) = Returns tt).
  { apply assert_branches_returns.
    by intros o (b & -> & _)%list_elem_of_fmap. }
  rewrite Hassert. do 2 f_equal.
  induction bs as [|b bs IH]; [done|]. csimpl. f_equal. apply IH.
  apply assert_branches_returns.
  by intros o (c & -> & _)%list_elem_of_fmap.
Qed.

(** ** find_path returns a downward path of the tree *)

Lemma node_paths_labels_along (t : Tree) (p : list Z) :
  p ∈ node_paths t →
  ∃ pos, labels_along t pos = Some p ∧ label <$> subtree t pos = last p.
Proof.
  revert p. induction t as [l bs IH] using Tree_nested_ind. intros p.
  rewrite node_paths_node, elem_of_cons.
  intros [->|(q & -> & (b & Hb & Hq)%elem_of_concat_fmap)%list_elem_of_fmap].
  { by exists []. }
  rewrite Forall_forall in IH.
  destruct (IH b Hb q Hq) as (pos & Hlabels & Hsub).
  apply list_elem_of_lookup in Hb as [i Hi].
  exists (i :: pos). cbn [labels_along subtree branches label].
  rewrite Hi, Hlabels, Hsub. split; [done|].
  apply node_paths_nonempty in Hq. destruct q; [done|].
  by rewrite last_cons_cons.
Qed.

(** X11: A path returned by [find_path(t, x)] can be walked in the tree: some
    sequence of branch choices from the root meets exactly the labels of
    the path, in order, and arrives at a node labelled [x]. *)
Theorem find_path_walks (t : Tree) (x : Z) (p : list Z) :
  find_path t x = Some p →
  ∃ pos, labels_along t pos = Some p ∧ label <$> subtree t pos = Some x.
Proof.
  rewrite find_path_first.
  intros [Hp Hlast]%first_ending_at_Some.
  destruct (node_paths_labels_along t p Hp) as (pos & Hlabels & Hsub).
  exists pos. by rewrite Hsub.
Qed.

Lemma find_path_walks_witness :
  find_path example_tree 5 = Some [1; 2; 5]%Z
  ∧ ∃ pos,
      labels_along example_tree pos = Some [1; 2; 5]%Z
      ∧ label <$> subtree example_tree pos = Some 5%Z.
Proof.
  assert (H : find_path example_tree 5 = Some [1; 2; 5]%Z) by reflexivity.
  split; [exact H | exact (find_path_walks example_tree 5 _ H)].
Defined.

(** ** Strings *)

Lemma string_app_cons (c : ascii) (s r : string) :
  String c s +:+ r = String c (s +:+ r).
Proof. reflexivity. Qed.

Lemma string_app_nil_l (s : string) : "" +:+ s = s.
Proof. reflexivity. Qed.

Lemma string_app_nil_r (s : string) : s +:+ "" = s.
Proof. induction s as [|c s IH]; [done|]. by rewrite string_app_cons, IH. Qed.

Lemma string_app_assoc (a b c : string) : (a +:+ b) +:+ c = a +:+ (b +:+ c).
Proof. induction a as [|x a IH]; [done|]. by rewrite !string_app_cons, IH. Qed.

Lemma all_chars_app (P : ascii → bool) (a b : string) :
  all_chars P (a +:+ b) ↔ all_chars P a ∧ all_chars P b.
Proof.
  induction a as [|x a IH]; [simpl; rewrite string_app_nil_l; tauto|].
  rewrite string_app_cons. simpl. rewrite IH. tauto.
Qed.

Lemma all_chars_impl (P Q : ascii → bool) (s : string) :
  (∀ c, P c = true → Q c = true) → all_chars P s → all_chars Q s.
Proof. intros HPQ. induction s as [|c s IH]; simpl; [done|]. intuition. Qed.

Lemma pretty_N_go_chars (x : N) (s : string) :
  all_chars label_char s → all_chars label_char (pretty_N_go x s).
Proof.
  revert s. induction (N.lt_wf_0 x) as [x _ IH]; intros s Hs.
  assert (x = 0 ∨ 0 < x)%N as [->|Hpos] by lia.
  { by rewrite pretty_N_go_0. }
  rewrite pretty_N_go_step by done. apply IH.
  { by apply N.div_lt. }
  split; [|done]. unfold pretty_N_char. by repeat case_match.
Qed.

(** A rendered label consists of digits and at most a minus sign. *)
Lemma repr_label_chars (l : Z) : all_chars label_char (repr_label l).
Proof.
  assert (HN : ∀ x : N, all_chars label_char (pretty x)).
  { intros x. unfold pretty, pretty_N. case_decide; [done|].
    by apply pretty_N_go_chars. }
  unfold repr_label, pretty, pretty_Z. destruct l as [|p|p]; [done|..].
  - apply HN.
  - apply all_chars_app. split; [done|apply HN].
Qed.

(** ** indented and __str__ *)

Lemma fold_left_append_lines (ls acc : list string) :
  fold_left (fun lines line => lines ++ ["  " +:+ line]) ls acc
  = acc ++ (String.app "  " <$> ls).
Proof.
  revert acc. induction ls as [|line ls IH]; intros acc; simpl.
  - by rewrite app_nil_r.
  - by rewrite IH, <- app_assoc.
Qed.

Lemma fold_left_append_branches (f : Tree → list string) (bs : list Tree)
    (acc : list string) :
  fold_left
    (fun lines b =>
       fold_left (fun lines line => lines ++ ["  " +:+ line]) (f b) lines)
    bs acc
  = acc ++ concat ((fun b => String.app "  " <$> f b) <$> bs).
Proof.
  revert acc. induction bs as [|b bs IH]; intros acc; simpl.
  - by rewrite app_nil_r.
  - by rewrite IH, fold_left_append_lines, <- app_assoc.
Qed.

Lemma indented_node (l : Z) (bs : list Tree) :
  indented (Node l bs)
  = repr_label l :: concat ((fun b => String.app "  " <$> indented b) <$> bs).
Proof. simpl. by rewrite fold_left_append_branches. Qed.

Lemma indentation_snoc (d : nat) :
  indentation d +:+ "  " = "  " +:+ indentation d.
Proof.
  induction d as [|d IH]; [done|]. simpl.
  by rewrite string_app_assoc, IH.
Qed.

Lemma fmap_concat {A B} (f : A → B) (ls : list (list A)) :
  f <$> concat ls = concat ((fun l : list A => f <$> l) <$> ls).
Proof.
  induction ls as [|l ls IH]; [done|]. simpl. by rewrite fmap_app, IH.
Qed.

Lemma indented_depth (d : nat) (t : Tree) :
  String.app (indentation d) <$> indented t
  = render_line <$> preorder_depths d t.
Proof.
  revert d. induction t as [l bs IH] using Tree_nested_ind. intros d.
  rewrite indented_node. simpl preorder_depths. rewrite !fmap_cons.
  f_equal. rewrite !fmap_concat, <- !list_fmap_compose. f_equal.
  apply Forall_fmap_ext_1. eapply Forall_impl; [exact IH|].
  intros b Hb. simpl. rewrite <- Hb, <- list_fmap_compose.
  apply list_fmap_ext. intros i line _. simpl.
  by rewrite <- !string_app_assoc, indentation_snoc.
Qed.

Lemma preorder_depths_labels (d : nat) (t : Tree) :
  snd <$> preorder_depths d t = preorder t.
Proof.
  revert d. induction t as [l bs IH] using Tree_nested_ind. intros d.
  rewrite preorder_node. simpl preorder_depths. rewrite fmap_cons. f_equal.
  rewrite fmap_concat, <- list_fmap_compose. f_equal.
  apply Forall_fmap_ext_1. eapply Forall_impl; [exact IH|].
  intros b Hb. apply Hb.
Qed.

Lemma indented_lines (t : Tree) :
  indented t = render_line <$> preorder_depths 0 t.
Proof.
  rewrite <- indented_depth. symmetry. apply fmap_fixed.
  by apply Forall_true.
Qed.

(** X13: [indented()] gives one line per node, the nodes in the order of
    [preorder]: the line of a node is its label after two spaces for every
    level between it and the root. *)
Theorem indented_spec (t : Tree) :
  indented t = render_line <$> preorder_depths 0 t
  ∧ snd <$> preorder_depths 0 t = preorder t
  ∧ length (indented t) = size t.
Proof.
  split_and!.
  - apply indented_lines.
  - apply preorder_depths_labels.
  - rewrite indented_lines, length_fmap.
    rewrite <- (length_fmap snd), preorder_depths_labels.
    apply length_preorder.
Qed.

Lemma line_char_not_newline (c : ascii) :
  line_char c = true → Ascii.eqb c "010"%char = false.
Proof. destruct (Ascii.eqb_spec c "010"%char) as [->|]; [|done]. by vm_compute. Qed.

Lemma split_lines_app (a cur rest : string) :
  all_chars line_char a →
  split_lines cur (a +:+ rest) = split_lines (cur +:+ a) rest.
Proof.
  revert cur. induction a as [|c a IH]; intros cur.
  { by rewrite string_app_nil_l, string_app_nil_r. }
  intros [Hc Ha]. rewrite string_app_cons. simpl split_lines.
  rewrite (line_char_not_newline c Hc), IH by done.
  by rewrite string_app_assoc.
Qed.

Lemma string_concat_cons (sep x y : string) (ys : list string) :
  String.concat sep (x :: y :: ys) = x +:+ sep +:+ String.concat sep (y :: ys).
Proof. reflexivity. Qed.

Lemma split_lines_newline (cur s : string) :
  split_lines cur (String "010"%char s) = cur :: split_lines "" s.
Proof. reflexivity. Qed.

Lemma split_lines_concat (cur x : string) (xs : list string) :
  Forall (all_chars line_char) (x :: xs) →
  split_lines cur (String.concat newline (x :: xs)) = (cur +:+ x) :: xs.
Proof.
  revert cur x. induction xs as [|y ys IH]; intros cur x [Hx Hxs]%Forall_cons.
  - change (String.concat newline [x]) with x.
    rewrite <- (string_app_nil_r x) at 1. by rewrite split_lines_app.
  - rewrite string_concat_cons, split_lines_app by done.
    unfold newline at 1.
    rewrite string_app_cons, string_app_nil_l, split_lines_newline.
    f_equal. by rewrite IH.
Qed.

Lemma indentation_chars (d : nat) : all_chars line_char (indentation d).
Proof. induction d as [|d IH]; [done|]. simpl. by rewrite all_chars_app. Qed.

Lemma indented_chars (t : Tree) : Forall (all_chars line_char) (indented t).
Proof.
  rewrite indented_lines. apply Forall_fmap, Forall_true. intros [d l].
  apply all_chars_app. split; [apply indentation_chars|].
  eapply all_chars_impl; [|apply repr_label_chars].
  intros c Hc. unfold line_char. by rewrite Hc.
Qed.

(** X14: The text of [__str__] holds the lines of [indented()] and nothing
    else: no line contains a line separator, so cutting the text at its
    separators gives the lines back, one per node. *)
Theorem Tree_str_lines (t : Tree) :
  split_lines "" (Tree_str t) = indented t
  ∧ length (split_lines "" (Tree_str t)) = size t.
Proof.
  assert (Hsplit : split_lines "" (Tree_str t) = indented t).
  { unfold Tree_str. pose proof (indented_chars t) as Hchars.
    destruct t as [l bs]. rewrite indented_node in *.
    by rewrite split_lines_concat. }
  split; [done|]. rewrite Hsplit, indented_lines, length_fmap.
  rewrite <- (length_fmap snd), preorder_depths_labels.
  apply length_preorder.
Qed.

(** ** __repr__ *)

Lemma Tree_repr_node (l : Z) (bs : list Tree) :
  Tree_repr (Node l bs)
  = "Tree(" +:+ repr_label l
      +:+ match bs with
          | [] => ""
          | _ :: _ => ", " +:+ repr_list (Tree_repr <$> bs)
          end
      +:+ ")".
Proof. reflexivity. Qed.

(** Two rendered labels, each followed by a character that no label
    contains, can only agree when the labels and what follows agree. *)
Lemma label_prefix_inj (a a' : string) (c c' : ascii) (r r' : string) :
  all_chars label_char a → all_chars label_char a' →
  label_char c = false → label_char c' = false →
  a +:+ String c r = a' +:+ String c' r' →
  a = a' ∧ String c r = String c' r'.
Proof.
  intros Ha Ha' Hc Hc'. revert a' Ha'.
  induction a as [|x a IH]; intros [|x' a'] Ha'; rewrite ?string_app_cons,
    ?string_app_nil_l; intros Heq.
  - done.
  - injection Heq as -> _. destruct Ha' as [Hx _]. congruence.
  - injection Heq as <- _. destruct Ha as [Hx _]. congruence.
  - injection Heq as -> Heq. destruct Ha as [_ Ha], Ha' as [_ Ha'].
    destruct (IH Ha a' Ha' Heq) as [-> Hrest]. done.
Qed.

Lemma repr_items_prefix_free (bs : list Tree) :
  Forall (fun b => ∀ t' r r',
            Tree_repr b +:+ r = Tree_repr t' +:+ r' → b = t' ∧ r = r') bs →
  ∀ bs' r r',
    bs ≠ [] → bs' ≠ [] →
    String.concat ", " (Tree_repr <$> bs) +:+ "]" +:+ r
    = String.concat ", " (Tree_repr <$> bs') +:+ "]" +:+ r' →
    bs = bs' ∧ r = r'.
Proof.
  induction 1 as [|b rest Hb _ IH]; intros bs' r r' Hne Hne' Heq; [done|].
  destruct bs' as [|b' rest']; [done|].
  destruct rest as [|c rest], rest' as [|c' rest'];
    rewrite !fmap_cons, ?fmap_nil, ?string_concat_cons in Heq;
    change (String.concat ", " [?x]) with x in Heq;
    rewrite ?string_app_assoc in Heq;
    apply Hb in Heq as [<- Heq].
  - by apply (inj (String.app "]")) in Heq as ->.
  - rewrite !string_app_cons in Heq. discriminate Heq.
  - rewrite !string_app_cons in Heq. discriminate Heq.
  - apply (inj (String.app ", ")) in Heq.
    rewrite <- !fmap_cons in Heq.
    by destruct (IH (c' :: rest') r r') as [<- <-].
Qed.

(** No rendering is a proper beginning of another: what follows the
    rendering of a tree in a text is determined by the text. *)
Lemma Tree_repr_prefix_free (t : Tree) :
  ∀ t' r r', Tree_repr t +:+ r = Tree_repr t' +:+ r' → t = t' ∧ r = r'.
Proof.
  induction t as [l bs IH] using Tree_nested_ind. intros [l' bs'] r r'.
  rewrite !Tree_repr_node, !string_app_assoc. intros Heq.
  apply (inj (String.app "Tree(")) in Heq.
  pose proof (repr_label_chars l) as Hl.
  pose proof (repr_label_chars l') as Hl'.
  destruct bs as [|b rest], bs' as [|b' rest'];
    unfold repr_list in Heq;
    rewrite ?string_app_assoc, ?string_app_cons, ?string_app_nil_l in Heq;
    apply label_prefix_inj in Heq as [Hlabel Heq]; try done.
  - apply (inj repr_label) in Hlabel as ->. by simplify_eq.
  - apply (inj repr_label) in Hlabel as ->. simplify_eq.
    destruct (repr_items_prefix_free (b :: rest) IH (b' :: rest') (")" +:+ r)
                (")" +:+ r')) as [-> Hr]; [done..|].
    by apply (inj (String.app ")")) in Hr as ->.
Qed.

(** X15: [__repr__] tells trees apart: two trees with the same rendering are
    the same tree, labels, shape and order of branches included. *)
Theorem Tree_repr_injective (t t' : Tree) :
  Tree_repr t = Tree_repr t' → t = t'.
Proof.
  intros Heq.
  destruct (Tree_repr_prefix_free t t' "" "") as [-> _]; [|done].
  by rewrite !string_app_nil_r.
Qed.

Lemma Tree_repr_injective_witness :
  Tree_repr example_tree
  = Tree_repr (Node 1 [Node 2 [Node 4 []; Node 5 []]; Node 3 []])
  ∧ example_tree = Node 1 [Node 2 [Node 4 []; Node 5 []]; Node 3 []].
Proof.
  assert (H : Tree_repr example_tree
              = Tree_repr (Node 1 [Node 2 [Node 4 []; Node 5 []]; Node 3 []]))
    by reflexivity.
  split; [exact H | exact (Tree_repr_injective _ _ H)].
Defined.

(** ** prune_small: branches of equal label *)

Lemma prune_while_ties (n : Z) (fuel : nat) (bs : list Tree) :
  (0 ≤ n)%Z → length bs ≤ fuel →
  (∀ b c, b ∈ bs → c ∈ bs → label b = label c) →
  prune_while fuel bs n = (drop (length bs - Z.to_nat n) bs, Returns tt).
Proof.
  intros Hn. revert bs. induction fuel as [|fuel IH]; intros bs Hlen Hties;
    rewrite prune_while_eq;
    (destruct (Z.gtb_spec (Z.of_nat (length bs)) n) as [Hgt|Hle];
     [|by replace (length bs - Z.to_nat n) with 0 by lia]).
  - lia.
  - destruct bs as [|b0 bs0]; [simpl in Hgt; lia|].
    destruct (py_max_key (b0 :: bs0)) as [largest|] eqn:Hmax; [|done].
    destruct (py_remove_max_position _ _ Hmax) as (i & Hi & Hlt & _ & ->).
    destruct i as [|i].
    + cbn [delete list_delete]. rewrite IH.
      * rewrite length_cons in *.
        by replace (S (length bs0) - Z.to_nat n)
          with (S (length bs0 - Z.to_nat n)) by lia.
      * simpl in Hlen. lia.
      * intros b c Hb Hc. apply Hties; by right.
    + specialize (Hlt 0 b0 eq_refl). 
      rewrite (Hties b0 largest) in Hlt;
        [lia|by left|by eapply list_elem_of_lookup_2].
Qed.

(** X8: When the branches of [t] all carry the same label, [prune_small(t, n)]
    with [n >= 0] keeps the last [n] of them: of branches with equal
    labels, [max] picks the first, so the earliest go first. *)
Theorem prune_small_ties (t : Tree) (n : Z) (fuel : nat) :
  (0 ≤ n)%Z → size t < fuel →
  (∀ b c, b ∈ branches t → c ∈ branches t → label b = label c) →
  branches (fst (prune_small fuel t n))
  = (fun b => fst (prune_small fuel b n))
      <$> drop (length (branches t) - Z.to_nat n) (branches t).
Proof.
  intros Hn Hsize Hties.
  rewrite prune_small_root by done.
  by rewrite prune_while_ties.
Qed.

Lemma prune_small_ties_witness :
  let t := Node 0 [Node 7 [Node 1 []]; Node 7 [Node 2 []]; Node 7 []] in
  (0 ≤ 1)%Z ∧ size t < 7
  ∧ (∀ b c, b ∈ branches t → c ∈ branches t → label b = label c)
  ∧ branches (fst (prune_small 7 t 1))
    = (fun b => fst (prune_small 7 b 1))
        <$> drop (length (branches t) - Z.to_nat 1) (branches t).
Proof.
  intros t.
  assert (Hn : (0 ≤ 1)%Z) by lia.
  assert (H : size t < 7) by (vm_compute; lia).
  assert (Hties : ∀ b c, b ∈ branches t → c ∈ branches t → label b = label c).
  { intros b c Hb Hc. subst t. cbn [branches] in Hb, Hc.
    rewrite !elem_of_cons, elem_of_nil in Hb, Hc.
    by destruct Hb as [->|[->|[->|[]]]], Hc as [->|[->|[->|[]]]]. }
  split; [exact Hn|]. split; [exact H|].
  split; [exact Hties | exact (prune_small_ties t 1 7 Hn H Hties)].
Defined.
